(** * Dependency manager of [up] (internal/xpkg/dep/manager/manager.go)

  A shallow embedding of the [Manager]: constraint finalisation, cache
  versus registry reconciliation by digest, the recursive traversal of the
  declared dependencies, and the merge of validators into a snapshot.

  The three collaborators of the manager ([Cache], [ImageResolver],
  [XpkgMarshaler]) are Go interfaces; they are type classes here, over a
  type [W] that holds whatever state stands behind them (the files of the
  cache, the content of the registry).  The manager itself is embedded in
  a state-and-error monad over the [Manager] record. *)

From Stdlib Require Import ssreflect.
From stdpp Require Import gmap strings list fin_maps.

Set Warnings "-rewrite-rw".

(** ** Data model *)

(** Go's [error] values.  The manager only ever asks one question of an
  error, [os.IsNotExist]. *)
Inductive error : Type :=
| ErrNotExist (msg : string)
| ErrOther (msg : string).

Module os.
Definition IsNotExist (err : error) : bool :=
  match err with
  | ErrNotExist _ => true
  | ErrOther _ => false
  end.
End os.

(** A Go pair [(v, err)] that follows the usual convention: a value when
  [err == nil], no value otherwise. *)
Inductive result (A : Type) : Type :=
| Ok (a : A)
| Err (err : error).
Arguments Ok {A} a.
Arguments Err {A} err.

Module schema.
Record GroupVersionKind : Type := GVK {
  Group : string;
  Version : string;
  Kind : string
}.

#[global] Instance GroupVersionKind_eq_dec : EqDecision GroupVersionKind.
Proof. solve_decision. Defined.

#[global] Instance GroupVersionKind_countable : Countable GroupVersionKind.
Proof.
  refine (inj_countable'
            (λ k, (Group k, Version k, Kind k))
            (λ t, GVK t.1.1 t.1.2 t.2) _).
  by intros [].
Defined.
End schema.

Module validate.
(** [*validate.SchemaValidator]: the manager never looks inside a
    validator, it only copies the pointer; a validator is the number of
    the object pointed to. *)
Definition SchemaValidator : Type := N.
End validate.

Module v1beta1.
(** [type PackageType string] *)
Definition PackageType : Type := string.

Record Dependency : Type := {
  Package : string;
  Type_ : PackageType;
  Constraints : string
}.

#[global] Instance Dependency_eq_dec : EqDecision Dependency.
Proof. solve_decision. Defined.

(** [v1beta1.Dependency{}] *)
Definition zero : Dependency :=
  {| Package := EmptyString; Type_ := EmptyString; Constraints := EmptyString |}.

(** [d.Constraints = v] *)
Definition set_Constraints (d : Dependency) (v : string) : Dependency :=
  {| Package := Package d; Type_ := Type_ d; Constraints := v |}.
End v1beta1.

Module xpkg.
(** Modelled from the spec: [xpkg.ParsedPackage] is declared in
    internal/xpkg/dep/marshaler/xpkg, which is not among the sources; the
    manager reaches it through the accessors [Type()], [Version()],
    [Digest()], [Dependencies()] and [Validators()] only.  The fields are
    those the data model lists for a resolved package. *)
Record ParsedPackage : Type := {
  Type_ : v1beta1.PackageType;
  Version : string;
  Digest : string;
  Dependencies : list v1beta1.Dependency;
  Validators : gmap schema.GroupVersionKind validate.SchemaValidator
}.

#[global] Instance ParsedPackage_eq_dec : EqDecision ParsedPackage.
Proof. solve_decision. Defined.
End xpkg.

Abbreviation Dependency := v1beta1.Dependency.
Abbreviation ParsedPackage := xpkg.ParsedPackage.
Abbreviation view_t := (gmap schema.GroupVersionKind validate.SchemaValidator).

(** ** The collaborators *)

(** Each method takes the state [W] behind the collaborators and returns the
  state it leaves. *)
Class Cache (W : Type) : Type := {
  Get : Dependency → W → result ParsedPackage * W;
  Store : Dependency → ParsedPackage → W → result () * W
}.

Class ImageResolver (W Tag Image : Type) : Type := {
  ResolveTag : Dependency → W → result string * W;
  ResolveDigest : Dependency → W → result string * W;
  ResolveImage : Dependency → W → result (Tag * Image) * W
}.

Class XpkgMarshaler (W Tag Image : Type) : Type := {
  FromImage : string → Tag → Image → W → result ParsedPackage * W
}.

(** The calls the manager makes, with their arguments and what came back. *)
Inductive Event (Tag Image : Type) : Type :=
| CallResolveTag (d : Dependency) (r : result string)
| CallGet (d : Dependency) (r : result ParsedPackage)
| CallResolveDigest (d : Dependency) (r : result string)
| CallResolveImage (d : Dependency) (r : result (Tag * Image))
| CallFromImage (pkg : string) (t : Tag) (i : Image) (r : result ParsedPackage)
| CallStore (d : Dependency) (p : ParsedPackage) (r : result ()).
Arguments CallResolveTag {Tag Image} d r.
Arguments CallGet {Tag Image} d r.
Arguments CallResolveDigest {Tag Image} d r.
Arguments CallResolveImage {Tag Image} d r.
Arguments CallFromImage {Tag Image} pkg t i r.
Arguments CallStore {Tag Image} d p r.

(** [Manager]: the fields [c], [i] and [x] are the collaborators, whose state
  is [env]; [acc] is the accumulator kept on the instance; [log] is the
  history of the calls made through [c], [i] and [x] (it is not a field of
  the Go struct, nothing in the manager reads it). *)
Record Manager (W Tag Image : Type) : Type := mkManager {
  env : W;
  acc : list ParsedPackage;
  log : list (Event Tag Image)
}.
Arguments mkManager {W Tag Image} env acc log.
Arguments env {W Tag Image} m.
Arguments acc {W Tag Image} m.
Arguments log {W Tag Image} m.

(** ** The monads *)

Section Monads.
Context {St : Type}.

(** Straight-line code: a state transformer that may return an error; the
    state is kept when it does. *)
Definition M (A : Type) : Type := St → result A * St.

Definition M_ret {A} (a : A) : M A := λ s, (Ok a, s).

Definition M_bind {A B} (f : A → M B) (m : M A) : M B :=
  λ s, match m s with
       | (Ok a, s1) => f a s1
       | (Err err, s1) => (Err err, s1)
       end.

(** Recursive code: [None] when the recursion went deeper than the budget
    it was given. *)
Definition F (A : Type) : Type := St → option (result A * St).

Definition F_ret {A} (a : A) : F A := λ s, Some (Ok a, s).

Definition F_bind {A B} (f : A → F B) (m : F A) : F B :=
  λ s, match m s with
       | Some (Ok a, s1) => f a s1
       | Some (Err err, s1) => Some (Err err, s1)
       | None => None
       end.

Definition lift {A} (m : M A) : F A := λ s, Some (m s).

(** [for _, x := range l { body }], where [body] returns an error to leave
    the enclosing function. *)
Fixpoint for_range {A} (l : list A) (body : A → F ()) : F () :=
  match l with
  | [] => F_ret ()
  | x :: l' => F_bind (λ _, for_range l' body) (body x)
  end.
End Monads.

Arguments M St A : clear implicits.
Arguments F St A : clear implicits.

Notation "x ←ᴹ m ; k" := (M_bind (λ x, k) m)
  (at level 20, m at level 100, k at level 200, only parsing, right associativity).
Notation "x ←ᶠ m ; k" := (F_bind (λ x, k) m)
  (at level 20, m at level 100, k at level 200, only parsing, right associativity).

(** ** The manager *)

Section manager.
Context {W Tag Image : Type}.
Context `{!Cache W, !ImageResolver W Tag Image, !XpkgMarshaler W Tag Image}.

Abbreviation Mgr := (Manager W Tag Image).
Abbreviation Ev := (Event Tag Image).

(** A call through one of the interfaces: run it on [env], record it. *)
Definition call {A} (op : W → result A * W) (ev : result A → Ev) : M Mgr A :=
  λ m, let '(r, w) := op (env m) in
       (r, mkManager w (acc m) (log m ++ [ev r])).

(** [m.acc = append(m.acc, e)] *)
Definition append_acc (e : ParsedPackage) : M Mgr () :=
  λ m, (Ok (), mkManager (env m) (acc m ++ [e]) (log m)).

(** [finalizeDepVersion] works on [*d]; here it returns the new [d]. *)
Definition finalizeDepVersion (d : Dependency) : M Mgr Dependency :=
  v ←ᴹ call (ResolveTag d) (CallResolveTag d);
  M_ret (v1beta1.set_Constraints d v).

Definition addPkg (d : Dependency) : M Mgr ParsedPackage :=
  ti ←ᴹ call (ResolveImage d) (CallResolveImage d);
  p ←ᴹ call (FromImage (v1beta1.Package d) ti.1 ti.2)
            (CallFromImage (v1beta1.Package d) ti.1 ti.2);
  _ ←ᴹ call (Store d p) (CallStore d p);
  M_ret p.

Definition retrievePkg (d : Dependency) : M Mgr ParsedPackage :=
  d ←ᴹ finalizeDepVersion d;
  λ m, match call (Get d) (CallGet d) m with
       | (Err err, m1) =>
           if negb (os.IsNotExist err) then (Err err, m1)
           else addPkg d m1
       | (Ok p, m1) =>
           (digest ←ᴹ call (ResolveDigest d) (CallResolveDigest d);
            if bool_decide (xpkg.Digest p ≠ digest) then addPkg d
            else M_ret p) m1
       end.

(** The recursion of [resolveAllDeps] goes through the body of its loop;
    [fuel] bounds how many calls of [resolveAllDeps] may be open at once. *)
Fixpoint resolveAllDeps (fuel : nat) (p : ParsedPackage) : F Mgr () :=
  match fuel with
  | 0 => λ _, None
  | S fuel' =>
      if bool_decide (length (xpkg.Dependencies p) = 0) then F_ret ()
      else
        for_range (xpkg.Dependencies p) (λ d,
          e ←ᶠ lift (retrievePkg d);
          _ ←ᶠ lift (append_acc e);
          resolveAllDeps fuel' e)
  end.

(** The body of the loop of [resolveAllDeps], for the dependency [d]. *)
Definition visit (fuel : nat) (d : Dependency) : F Mgr () :=
  e ←ᶠ lift (retrievePkg d);
  _ ←ᶠ lift (append_acc e);
  resolveAllDeps fuel e.

(** [Resolve] returns its three results whatever the error is. *)
Definition Resolve (fuel : nat) (d : Dependency)
  : Mgr → option ((Dependency * list ParsedPackage * option error) * Mgr) :=
  λ m,
    let ud := v1beta1.zero in
    match retrievePkg d m with
    | (Err _, m1) => Some ((ud, acc m1, None), m1)
    | (Ok e, m1) =>
        let m2 := (append_acc e m1).2 in
        match resolveAllDeps fuel e m2 with
        | None => None
        | Some (Err err, m3) => Some ((ud, acc m3, Some err), m3)
        | Some (Ok _, m3) =>
            Some (({| v1beta1.Type_ := xpkg.Type_ e;
                      v1beta1.Package := v1beta1.Package d;
                      v1beta1.Constraints := xpkg.Version e |},
                   acc m3, None), m3)
        end
    end.

(** [for k, v := range p.Validators() { view[k] = v }] *)
Definition merge_validators (view : view_t) (p : ParsedPackage) : view_t :=
  map_fold (λ k v vw, <[k:=v]> vw) view (xpkg.Validators p).

(** [for _, p := range acc { ... }] *)
Definition merge_acc (view : view_t) (l : list ParsedPackage) : view_t :=
  foldl merge_validators view l.

Fixpoint Snapshot_loop (fuel : nat) (deps : list Dependency) (view : view_t)
  : F Mgr view_t :=
  match deps with
  | [] => F_ret view
  | d :: deps' =>
      λ m, match Resolve fuel d m with
           | None => None
           | Some ((_, _, Some err), m1) => Some (Err err, m1)
           | Some ((_, a, None), m1) =>
               Snapshot_loop fuel deps' (merge_acc view a) m1
           end
  end.

(** The [view] of the [*Snapshot] returned. *)
Definition Snapshot (fuel : nat) (deps : list Dependency) : F Mgr view_t :=
  Snapshot_loop fuel deps ∅.

(** A retrieval fails somewhere in the recursion under [p]: either for a
    dependency that [p] declares, the ones before it having gone through, or
    further down, under a dependency of [p] that was retrieved. *)
Inductive transitive_failure : nat → ParsedPackage → Mgr → error → Mgr → Prop :=
| failure_here fuel p ds1 d ds2 m m1 err m2 :
    xpkg.Dependencies p = ds1 ++ d :: ds2 →
    for_range ds1 (visit fuel) m = Some (Ok (), m1) →
    retrievePkg d m1 = (Err err, m2) →
    transitive_failure (S fuel) p m err m2
| failure_below fuel p ds1 d ds2 m m1 e m2 err m3 :
    xpkg.Dependencies p = ds1 ++ d :: ds2 →
    for_range ds1 (visit fuel) m = Some (Ok (), m1) →
    retrievePkg d m1 = (Ok e, m2) →
    transitive_failure fuel e (append_acc e m2).2 err m3 →
    transitive_failure (S fuel) p m err m3.

End manager.


(** ** The constructor and its options *)

Module mstruct.
(** The [Manager] struct as [New] and the options see it: the three
    collaborators as values, and the accumulator. *)
Record t (W Tag Image : Type) : Type := mk {
  c : Cache W;
  i : ImageResolver W Tag Image;
  x : XpkgMarshaler W Tag Image;
  acc : list ParsedPackage
}.
Arguments mk {W Tag Image} c i x acc.
Arguments c {W Tag Image} _.
Arguments i {W Tag Image} _.
Arguments x {W Tag Image} _.
Arguments acc {W Tag Image} _.
End mstruct.

Section constructor.
Context {W Tag Image : Type}.

(** [Option]: a function that modifies the [Manager] it is given a pointer
    to. *)
Definition Option : Type := mstruct.t W Tag Image → mstruct.t W Tag Image.

Definition WithCache (c : Cache W) : Option :=
  λ m, mstruct.mk c (mstruct.i m) (mstruct.x m) (mstruct.acc m).

Definition WithResolver (r : ImageResolver W Tag Image) : Option :=
  λ m, mstruct.mk (mstruct.c m) r (mstruct.x m) (mstruct.acc m).

(** [New].  What [cache.NewLocal()], [xpkg.NewMarshaler()] and
    [image.NewResolver()] return is given: these constructors are not among
    the sources. *)
Definition New
    (NewLocal : result (Cache W))
    (NewMarshaler : result (XpkgMarshaler W Tag Image))
    (NewResolver : ImageResolver W Tag Image)
    (opts : list Option) : result (mstruct.t W Tag Image) :=
  match NewLocal with
  | Err err => Err err
  | Ok c =>
      match NewMarshaler with
      | Err err => Err err
      | Ok x =>
          Ok (foldl (λ m o, o m) (mstruct.mk c NewResolver x []) opts)
      end
  end.

(** The manager that [New] returned, with the collaborators in the state
    [w], before any call. *)
Definition started (m : mstruct.t W Tag Image) (w : W) : Manager W Tag Image :=
  mkManager w (mstruct.acc m) [].

End constructor.
(** ** Vocabulary of the properties *)

Section runs.
Context {Tag Image : Type}.

Abbreviation Ev := (Event Tag Image).

(** The outcomes of [addPkg], read off the calls it made. *)
Inductive add_run d : list Ev → result ParsedPackage → Prop :=
| add_fetch_failed err :
    add_run d [CallResolveImage d (Err err)] (Err err)
| add_marshal_failed t i err :
    add_run d [CallResolveImage d (Ok (t, i));
               CallFromImage (v1beta1.Package d) t i (Err err)] (Err err)
| add_store_failed t i p err :
    add_run d [CallResolveImage d (Ok (t, i));
               CallFromImage (v1beta1.Package d) t i (Ok p);
               CallStore d p (Err err)] (Err err)
| add_stored t i p :
    add_run d [CallResolveImage d (Ok (t, i));
               CallFromImage (v1beta1.Package d) t i (Ok p);
               CallStore d p (Ok ())] (Ok p).

(** The outcomes of [retrievePkg], read off the calls it made. *)
Inductive retrieve_run d : list Ev → result ParsedPackage → Prop :=
| run_unresolved err :
    retrieve_run d [CallResolveTag d (Err err)] (Err err)
| run_cache_failed v err :
    os.IsNotExist err = false →
    retrieve_run d
      [CallResolveTag d (Ok v);
       CallGet (v1beta1.set_Constraints d v) (Err err)] (Err err)
| run_miss v err evs r :
    os.IsNotExist err = true →
    add_run (v1beta1.set_Constraints d v) evs r →
    retrieve_run d
      (CallResolveTag d (Ok v)
       :: CallGet (v1beta1.set_Constraints d v) (Err err) :: evs) r
| run_digest_failed v p err :
    retrieve_run d
      [CallResolveTag d (Ok v);
       CallGet (v1beta1.set_Constraints d v) (Ok p);
       CallResolveDigest (v1beta1.set_Constraints d v) (Err err)] (Err err)
| run_hit_fresh v p :
    retrieve_run d
      [CallResolveTag d (Ok v);
       CallGet (v1beta1.set_Constraints d v) (Ok p);
       CallResolveDigest (v1beta1.set_Constraints d v) (Ok (xpkg.Digest p))]
      (Ok p)
| run_hit_stale v p dg evs r :
    xpkg.Digest p ≠ dg →
    add_run (v1beta1.set_Constraints d v) evs r →
    retrieve_run d
      (CallResolveTag d (Ok v)
       :: CallGet (v1beta1.set_Constraints d v) (Ok p)
       :: CallResolveDigest (v1beta1.set_Constraints d v) (Ok dg) :: evs) r.

(** One call of [retrievePkg]: the dependency it was given, the calls it
    made, and what it returned. *)
Record Retrieval : Type := mkRetrieval {
  r_dep : Dependency;
  r_calls : list Ev;
  r_out : result ParsedPackage
}.

Definition calls_of (rs : list Retrieval) : list Ev :=
  concat (r_calls <$> rs).

(** The packages of the retrievals that succeeded, in order. *)
Definition packages_of (rs : list Retrieval) : list ParsedPackage :=
  omap (λ x, match r_out x with Ok p => Some p | Err _ => None end) rs.

(** Between the states [m] and [m'] of the manager a number of retrievals
    were made, each of which satisfies [Φ]: their calls were added to the
    log, and the packages of those that succeeded to the accumulator. *)
Definition traced_by {W : Type}
    (Φ : Dependency → list Ev → result ParsedPackage → Prop)
    (m m' : Manager W Tag Image) : Prop :=
  ∃ rs, log m' = log m ++ calls_of rs
        ∧ acc m' = acc m ++ packages_of rs
        ∧ Forall (λ x, Φ (r_dep x) (r_calls x) (r_out x)) rs.

(** The calls that fetch, parse or store a package. *)
Definition is_fetch (ev : Ev) : bool :=
  match ev with
  | CallResolveImage _ _ | CallFromImage _ _ _ _ | CallStore _ _ _ => true
  | _ => false
  end.

(** [ev] is a cache lookup, a cache store, a digest query, a fetch or a parse
    made under the identity [df] (a parse is given the package name only). *)
Definition under_identity (df : Dependency) (ev : Ev) : Prop :=
  match ev with
  | CallResolveTag _ _ => False
  | CallGet d _ | CallResolveDigest d _ | CallResolveImage d _
  | CallStore d _ _ => d = df
  | CallFromImage pkg _ _ _ => pkg = v1beta1.Package df
  end.

(** The calls of one retrieval are finalized when the first is the
    [ResolveTag] of the dependency and, if that gave a version [v], all the
    others are made under the dependency with [v] for constraint; if it
    failed there is no other call. *)
Definition finalized_calls (d : Dependency) (evs : list Ev) : Prop :=
  ∃ rt rest,
    evs = CallResolveTag d rt :: rest
    ∧ match rt with
      | Ok v => Forall (under_identity (v1beta1.set_Constraints d v)) rest
      | Err _ => rest = []
      end.

(** A retrieval is digest-checked when its calls and its result are those
    of a run of [retrievePkg] for its dependency and, if it found a package
    [p] in the cache and returned [q], it asked the registry for the digest
    of the identity and [q] has the digest the registry gave: [q] is [p]
    itself, or, the digest of [p] being another, a package parsed during
    the retrieval. *)
Definition digest_checked (x : Retrieval) : Prop :=
  retrieve_run (r_dep x) (r_calls x) (r_out x)
  ∧ ∀ df p q,
      CallGet df (Ok p) ∈ r_calls x →
      r_out x = Ok q →
      ∃ dg, CallResolveDigest df (Ok dg) ∈ r_calls x
            ∧ xpkg.Digest q = dg
            ∧ (q = p
               ∨ (xpkg.Digest p ≠ dg
                  ∧ ∃ t i, CallFromImage (v1beta1.Package df) t i (Ok q)
                           ∈ r_calls x)).

End runs.

(** In the sequence [l], the last package that declares a validator for [k]
    declares [v]. *)
Definition last_declares (l : list ParsedPackage)
    (k : schema.GroupVersionKind) (v : validate.SchemaValidator) : Prop :=
  ∃ l1 p l2,
    l = l1 ++ p :: l2
    ∧ xpkg.Validators p !! k = Some v
    ∧ Forall (λ q, xpkg.Validators q !! k = None) l2.


(** ** The dependency graph *)

Section graphs.
Context {W Tag Image : Type}.
Context `{!Cache W, !ImageResolver W Tag Image, !XpkgMarshaler W Tag Image}.

(** [pkg_of d] is the package the dependency [d] resolves to. *)
Variable pkg_of : Dependency → ParsedPackage.

(** [p] declares a dependency that resolves to [q]. *)
Definition edge (p q : ParsedPackage) : Prop :=
  ∃ d, d ∈ xpkg.Dependencies p ∧ q = pkg_of d.

(** The packages under [p], depth first, each one before what is under it,
    down to [n] levels. *)
Fixpoint preorder_below (n : nat) (p : ParsedPackage) : list ParsedPackage :=
  match n with
  | 0 => []
  | S n' =>
      flat_map (λ d, pkg_of d :: preorder_below n' (pkg_of d))
               (xpkg.Dependencies p)
  end.

(** The chains of dependencies that start at [p] have fewer than [n]
    packages after [p]. *)
Fixpoint within_depth (n : nat) (p : ParsedPackage) : Prop :=
  match n with
  | 0 => False
  | S n' => ∀ d, d ∈ xpkg.Dependencies p → within_depth n' (pkg_of d)
  end.

(** After each occurrence of a package in [l] come the packages of all the
    dependencies it declares. *)
Definition followed_by_deps (l : list ParsedPackage) : Prop :=
  ∀ l1 q l2 d,
    l = l1 ++ q :: l2 → d ∈ xpkg.Dependencies q → pkg_of d ∈ l2.

(** No retrieval error: as long as the collaborators are in a state that
    satisfies [Inv], retrieving a dependency [d] of the graph ([known d])
    gives [pkg_of d] and leaves them in such a state; the dependencies that
    a package of the graph declares are in the graph. *)
Record retrieval_graph (known : Dependency → Prop) (Inv : W → Prop) : Prop := {
  graph_closed : ∀ d d',
    known d → d' ∈ xpkg.Dependencies (pkg_of d) → known d';
  graph_retrieve : ∀ d (m : Manager W Tag Image),
    known d → Inv (env m) →
    ∃ m', retrievePkg d m = (Ok (pkg_of d), m') ∧ Inv (env m')
}.

(** The dependencies that [p] declares are in the graph. *)
Definition deps_known (known : Dependency → Prop) (p : ParsedPackage) : Prop :=
  ∀ d, d ∈ xpkg.Dependencies p → known d.

End graphs.

(** ** Properties in the words of the specification *)

Section stated.
Context {W Tag Image : Type}.
Context `{!Cache W, !ImageResolver W Tag Image, !XpkgMarshaler W Tag Image}.

(** Cache write-through as the specification states it, for one retrieval:
    whatever image the retrieval fetched under an identity, a [Get] for
    that identity right after the retrieval gives a package that has the
    digest of the image. *)
Definition write_through (digest_of : Image → string)
    (d : Dependency) (m : Manager W Tag Image) : Prop :=
  ∀ evs df t i,
    log (retrievePkg d m).2 = log m ++ evs →
    CallResolveImage df (Ok (t, i)) ∈ evs →
    ∃ p, (Get df (env (retrievePkg d m).2)).1 = Ok p
         ∧ xpkg.Digest p = digest_of i.

End stated.

(** ** More vocabulary: failures, trails, iteration order *)

Section failures.
Context {Tag Image : Type}.

(** The error a call came back with, if it failed. *)
Definition ev_error (ev : Event Tag Image) : option error :=
  match ev with
  | CallResolveTag _ (Err err) | CallGet _ (Err err)
  | CallResolveDigest _ (Err err) | CallResolveImage _ (Err err)
  | CallFromImage _ _ _ (Err err) | CallStore _ _ (Err err) => Some err
  | _ => None
  end.

(** A cache lookup that failed with a not-exist error. *)
Definition cache_miss (ev : Event Tag Image) : Prop :=
  ∃ d err, ev = CallGet d (Err err) ∧ os.IsNotExist err = true.

(** The retrieval returned a package. *)
Definition succeeded (x : Retrieval (Tag:=Tag) (Image:=Image)) : Prop :=
  ∃ p, r_out x = Ok p.

(** The retrievals [rs] took the manager from [m] to [m'] and ended with the
    outcome [r]: their calls are what the log gained, the packages of those
    that succeeded are what the accumulator gained, each has the shape of a
    run of [retrievePkg]; on [Ok] all succeeded, on [Err err] all but the
    last did, and the last failed with [err]. *)
Definition trail {W A : Type} (m m' : Manager W Tag Image) (r : result A)
    (rs : list (Retrieval (Tag:=Tag) (Image:=Image))) : Prop :=
  log m' = log m ++ calls_of rs
  ∧ acc m' = acc m ++ packages_of rs
  ∧ Forall (λ x, retrieve_run (r_dep x) (r_calls x) (r_out x)) rs
  ∧ match r with
    | Ok _ => Forall succeeded rs
    | Err err =>
        ∃ rs0 x, rs = rs0 ++ [x] ∧ Forall succeeded rs0 ∧ r_out x = Err err
    end.

(** In the calls [evs], a fetch comes right after a cache lookup of the same
    identity that found nothing, or right after a lookup that found a
    package and a digest query that gave another digest than its own. *)
Definition fetch_guarded (evs : list (Event Tag Image)) : Prop :=
  ∀ a df r b,
    evs = a ++ CallResolveImage df r :: b →
    (∃ a0 err, a = a0 ++ [CallGet df (Err err)] ∧ os.IsNotExist err = true)
    ∨ (∃ a0 p dg,
         a = a0 ++ [CallGet df (Ok p); CallResolveDigest df (Ok dg)]
         ∧ xpkg.Digest p ≠ dg).

(** In the calls [evs], what is stored is the package that was parsed just
    before, from the image fetched just before that under the identity of
    the store. *)
Definition store_fresh (evs : list (Event Tag Image)) : Prop :=
  ∀ a df p r b,
    evs = a ++ CallStore df p r :: b →
    ∃ a0 t i,
      a = a0 ++ [CallResolveImage df (Ok (t, i));
                 CallFromImage (v1beta1.Package df) t i (Ok p)].

End failures.

(** The loop over [p.Validators()], ranging over the entries in the order
    [entries]: Go leaves the order of a range over a map open. *)
Definition merge_validators_ranged
    (entries : list (schema.GroupVersionKind * validate.SchemaValidator))
    (view : view_t) : view_t :=
  foldl (λ vw kv, <[kv.1 := kv.2]> vw) view entries.

Section options.
Context {W Tag Image : Type}.

(** The option is one that [WithCache] returned; one that [WithResolver]
    returned. *)
Definition cache_option (o : Option (W:=W) (Tag:=Tag) (Image:=Image)) : Prop :=
  ∃ c, o = WithCache c.
Definition resolver_option (o : Option (W:=W) (Tag:=Tag) (Image:=Image)) : Prop :=
  ∃ r, o = WithResolver r.

End options.
(** ** A registry and a cache to run the manager against *)

Module local.

(** The tables of the registry and of the cache: the entries by identity
    (package, and constraint or version), the one put last first; a lookup
    takes the first entry of the identity. *)
Record Table (V : Type) : Type := mkTable {
  entries : list ((string * string) * V)
}.
Arguments mkTable {V} entries.
Arguments entries {V} t.

Fixpoint find_entry {V} (k : string * string)
    (l : list ((string * string) * V)) : option V :=
  match l with
  | [] => None
  | (k', v) :: l' => if bool_decide (k' = k) then Some v else find_entry k l'
  end.

#[global] Instance table_lookup {V} : Lookup (string * string) V (Table V) :=
  λ k t, find_entry k (entries t).
#[global] Instance table_insert {V} : Insert (string * string) V (Table V) :=
  λ k v t, mkTable ((k, v) :: entries t).
#[global] Instance table_empty {V} : Empty (Table V) := mkTable [].

(** Modelled from the spec: the image resolver, of which only the interface
    is among the sources.  A registry answers [resolveTag] from a table of
    (package, constraint) to concrete version, and [resolveDigest] and
    [fetch] from a table of (package, version) to the content published
    under that tag.  No call changes the registry. *)
Record Registry : Type := {
  tags : Table string;
  images : Table ParsedPackage
}.

(** Modelled from the spec: the cache, of which only the interface is among
    the sources: a map from identity (package and version) to the package
    stored last under it; [get] fails with a not-found error when there is
    none. *)
Record World : Type := {
  registry : Registry;
  cache : Table ParsedPackage
}.

Definition key (d : Dependency) : string * string :=
  (v1beta1.Package d, v1beta1.Constraints d).

Definition not_found : error := ErrNotExist "not found".
Definition no_such_version : error := ErrOther "no version satisfies the constraint".
Definition no_such_image : error := ErrOther "no image under this tag".

#[global] Instance local_cache : Cache World := {
  Get d w :=
    match cache w !! key d with
    | Some p => (Ok p, w)
    | None => (Err not_found, w)
    end;
  Store d p w :=
    (Ok (), {| registry := registry w; cache := <[key d := p]> (cache w) |})
}.

#[global] Instance local_resolver : ImageResolver World string ParsedPackage := {
  ResolveTag d w :=
    match tags (registry w) !! key d with
    | Some v => (Ok v, w)
    | None => (Err no_such_version, w)
    end;
  ResolveDigest d w :=
    match images (registry w) !! key d with
    | Some i => (Ok (xpkg.Digest i), w)
    | None => (Err no_such_image, w)
    end;
  ResolveImage d w :=
    match images (registry w) !! key d with
    | Some i => (Ok (v1beta1.Constraints d, i), w)
    | None => (Err no_such_image, w)
    end
}.

(** Modelled from the spec: the marshaler; the content of an image is the
    package parsed from it, whose digest is the digest of the image. *)
#[global] Instance local_marshaler : XpkgMarshaler World string ParsedPackage := {
  FromImage _ _ i w := (Ok i, w)
}.

Abbreviation LMgr := (Manager World string ParsedPackage).

(** [New()]: nothing accumulated, nothing called yet. *)
Definition New (w : World) : LMgr := mkManager w [] [].

(** What the registry [R] has for the dependency [d]: the image under the
    version that the constraint of [d] resolves to. *)
Definition resolve (R : Registry) (d : Dependency) : option ParsedPackage :=
  match tags R !! key d with
  | Some v => images R !! (v1beta1.Package d, v)
  | None => None
  end.

Definition no_package : ParsedPackage :=
  {| xpkg.Type_ := EmptyString; xpkg.Version := EmptyString; xpkg.Digest := EmptyString;
     xpkg.Dependencies := []; xpkg.Validators := ∅ |}.

Definition pkg_of (R : Registry) (d : Dependency) : ParsedPackage :=
  default no_package (resolve R d).

(** Every dependency that an image of [R] declares can be resolved in [R]. *)
Definition closed (R : Registry) : Prop :=
  Forall (λ ki, Forall (λ d, is_Some (resolve R d)) (xpkg.Dependencies ki.2))
         (entries (images R)).

(** The registry is [R], and a cached package that has the digest of the
    image of [R] for its identity is that image. *)
Definition coherent (R : Registry) (w : World) : Prop :=
  registry w = R
  ∧ ∀ k p i,
      cache w !! k = Some p → images R !! k = Some i →
      xpkg.Digest p = xpkg.Digest i → p = i.

(** The cache of [w] holds [q] for what [d] finalizes to, and [q] has the
    digest the registry gives for it. *)
Definition warm (w : World) (d : Dependency) (q : ParsedPackage) : Prop :=
  ∃ v i,
    tags (registry w) !! key d = Some v
    ∧ cache w !! (v1beta1.Package d, v) = Some q
    ∧ images (registry w) !! (v1beta1.Package d, v) = Some i
    ∧ xpkg.Digest q = xpkg.Digest i.

(** The state after the image [i] was stored for (package, version). *)
Definition stored (w : World) (k : string * string) (i : ParsedPackage) : World :=
  {| registry := registry w; cache := <[k := i]> (cache w) |}.

(** A traversal that went through, run again on a cache where everything
    that it left warm is warm: the same packages are appended, nothing is
    fetched, parsed or stored, the cache and the registry are not touched. *)
Definition replayed (m m' m2 : LMgr) (r : option (result () * LMgr)) : Prop :=
  ∃ new evs,
    acc m' = acc m ++ new
    ∧ r = Some (Ok (), mkManager (env m2) (acc m2 ++ new) (log m2 ++ evs))
    ∧ Forall (λ ev, is_fetch ev = false) evs.

(** The freshness invariant as the specification states it, for one call
    of [Resolve] on the manager [m]: of the packages the call returns, one
    that the cache holds under an identity when the call is made has the
    digest the registry then has for that identity. *)
Definition returns_only_current (fuel : nat) (d : Dependency) (m : LMgr) : Prop :=
  ∀ out m' k q i,
    Resolve fuel d m = Some (out, m') →
    cache (env m) !! k = Some q →
    images (registry (env m)) !! k = Some i →
    q ∈ out.1.2 →
    xpkg.Digest q = xpkg.Digest i.

(** Idempotence as the specification states it, for two calls of [Resolve]
    in a row on the manager [m] (no call changes the registry): the second
    call returns the dependency the first returned, the packages it appends
    have the digests of those the first appended, and it calls neither
    fetch nor parse nor store. *)
Definition second_call_from_cache (fuel : nat) (d : Dependency) (m : LMgr) : Prop :=
  ∀ out1 m1 out2 m2,
    Resolve fuel d m = Some (out1, m1) →
    Resolve fuel d m1 = Some (out2, m2) →
    out2.1.1 = out1.1.1
    ∧ (∃ new1 new2,
         out1.1.2 = acc m ++ new1 ∧ out2.1.2 = out1.1.2 ++ new2
         ∧ xpkg.Digest <$> new2 = xpkg.Digest <$> new1)
    ∧ ∃ evs, log m2 = log m1 ++ evs
             ∧ Forall (λ ev, is_fetch ev = false) evs.

(** The manager [m] after the registry has changed to [R]: the cache, the
    accumulator and the record of calls are as they were. *)
Definition republished (R : Registry) (m : LMgr) : LMgr :=
  mkManager {| registry := R; cache := cache (env m) |} (acc m) (log m).

(** An implementation of the interface [Cache] that cannot be written:
    [Get] as the modelled cache, [Store] returns an error and stores
    nothing. *)
Definition read_only : error := ErrOther "cache is read-only".
Definition read_only_cache : Cache World := {|
  Get d w := Get (Cache:=local_cache) d w;
  Store d p w := (Err read_only, w)
|}.

End local.

(** ** The scenario: A@^1.0 is A@1.2.0 and declares B@^2.0, which is B@2.3.0 *)

Module scenario.
Import local.

Definition T : schema.GroupVersionKind := schema.GVK "example.org" "v1" "T".

Definition depA : Dependency :=
  {| v1beta1.Package := "A"; v1beta1.Type_ := EmptyString;
     v1beta1.Constraints := "^1.0" |}.
Definition depB : Dependency :=
  {| v1beta1.Package := "B"; v1beta1.Type_ := EmptyString;
     v1beta1.Constraints := "^2.0" |}.

Definition pkgB : ParsedPackage :=
  {| xpkg.Type_ := "Provider"; xpkg.Version := "2.3.0"; xpkg.Digest := "d2";
     xpkg.Dependencies := []; xpkg.Validators := ∅ |}.
Definition pkgA : ParsedPackage :=
  {| xpkg.Type_ := "Configuration"; xpkg.Version := "1.2.0"; xpkg.Digest := "d1";
     xpkg.Dependencies := [depB]; xpkg.Validators := ∅ |}.

Definition reg : Registry :=
  {| tags := mkTable [(("A", "^1.0"), "1.2.0"); (("B", "^2.0"), "2.3.0")];
     images := mkTable [(("A", "1.2.0"), pkgA); (("B", "2.3.0"), pkgB)] |}.

Definition fresh : LMgr := New {| registry := reg; cache := ∅ |}.


(** The cache holds A@1.2.0 with a digest that the registry no longer
    has. *)
Definition pkgA_old : ParsedPackage :=
  {| xpkg.Type_ := "Configuration"; xpkg.Version := "1.2.0"; xpkg.Digest := "d0";
     xpkg.Dependencies := []; xpkg.Validators := ∅ |}.
Definition outdated : LMgr :=
  New {| registry := reg; cache := mkTable [(("A", "1.2.0"), pkgA_old)] |}.

(** A registry that has no version of B for the constraint of A. *)
Definition reg_without_B : Registry :=
  {| tags := mkTable [(("A", "^1.0"), "1.2.0")];
     images := mkTable [(("A", "1.2.0"), pkgA)] |}.
Definition fresh_without_B : LMgr :=
  New {| registry := reg_without_B; cache := ∅ |}.


(** A registry with a second root, C@^3.0, which is C@3.1.0; A@1.2.0 and
    C@3.1.0 each have a validator for [T]. *)
Definition pkgA_T : ParsedPackage :=
  {| xpkg.Type_ := "Configuration"; xpkg.Version := "1.2.0"; xpkg.Digest := "d1";
     xpkg.Dependencies := []; xpkg.Validators := {[ T := 1%N ]} |}.
Definition depC : Dependency :=
  {| v1beta1.Package := "C"; v1beta1.Type_ := EmptyString;
     v1beta1.Constraints := "^3.0" |}.
Definition pkgC : ParsedPackage :=
  {| xpkg.Type_ := "Configuration"; xpkg.Version := "3.1.0"; xpkg.Digest := "d3";
     xpkg.Dependencies := []; xpkg.Validators := {[ T := 3%N ]} |}.
Definition reg_with_C : Registry :=
  {| tags := mkTable [(("A", "^1.0"), "1.2.0"); (("C", "^3.0"), "3.1.0")];
     images := mkTable [(("A", "1.2.0"), pkgA_T); (("C", "3.1.0"), pkgC)] |}.
Definition fresh_with_C : LMgr :=
  New {| registry := reg_with_C; cache := ∅ |}.

(** The registry when A@1.2.0 had the digest d0, and a manager that
    resolved A@^1.0 then, the registry having changed to [reg] since. *)
Definition reg_old : Registry :=
  {| tags := mkTable [(("A", "^1.0"), "1.2.0")];
     images := mkTable [(("A", "1.2.0"), pkgA_old)] |}.
Definition reused : LMgr :=
  match Resolve 1 depA (New {| registry := reg_old; cache := ∅ |}) with
  | Some (_, m) => republished reg m
  | None => fresh
  end.

(** A registry that has the version of A, and no image under that tag. *)
Definition reg_without_image : Registry :=
  {| tags := mkTable [(("A", "^1.0"), "1.2.0")]; images := ∅ |}.
Definition fresh_without_image : LMgr :=
  New {| registry := reg_without_image; cache := ∅ |}.

End scenario.


Module scenario_more.
Import local.

(** A cache that holds nothing and keeps nothing. *)
Definition quiet_cache : Cache World := {|
  Get d w := (Err not_found, w);
  Store d p w := (Ok (), w)
|}.

End scenario_more.
(** * Properties *)

(** ** Straight-line code: [finalizeDepVersion], [addPkg], [retrievePkg] *)

Section retrieval.
Context {W Tag Image : Type}.
Context `{!Cache W, !ImageResolver W Tag Image, !XpkgMarshaler W Tag Image}.

Abbreviation Mgr := (Manager W Tag Image).
Abbreviation Ev := (Event Tag Image).

Implicit Types (d : Dependency) (p q e : ParsedPackage) (m : Mgr) (w : W).

Lemma call_eq {A} (op : W → result A * W) (ev : result A → Ev) m r w :
  op (env m) = (r, w) →
  call op ev m = (r, mkManager w (acc m) (log m ++ [ev r])).
Proof. intros Hop. unfold call. by rewrite Hop. Qed.

Lemma M_bind_ok {St A B} (f : A → M St B) (c : M St A) s a s1 :
  c s = (Ok a, s1) → M_bind f c s = f a s1.
Proof. intros Hc. unfold M_bind. by rewrite Hc. Qed.

Lemma M_bind_err {St A B} (f : A → M St B) (c : M St A) s err s1 :
  c s = (Err err, s1) → M_bind f c s = (Err err, s1).
Proof. intros Hc. unfold M_bind. by rewrite Hc. Qed.

(** What [finalizeDepVersion] does, by what the resolver answers. *)
Lemma finalizeDepVersion_ok d m v w :
  ResolveTag d (env m) = (Ok v, w) →
  finalizeDepVersion d m =
    (Ok (v1beta1.set_Constraints d v),
     mkManager w (acc m) (log m ++ [CallResolveTag d (Ok v)])).
Proof.
  intros Hrt. unfold finalizeDepVersion.
  by rewrite (M_bind_ok _ _ _ _ _ (call_eq _ _ _ _ _ Hrt)).
Qed.

Lemma finalizeDepVersion_err d m err w :
  ResolveTag d (env m) = (Err err, w) →
  finalizeDepVersion d m =
    (Err err, mkManager w (acc m) (log m ++ [CallResolveTag d (Err err)])).
Proof.
  intros Hrt. unfold finalizeDepVersion.
  by rewrite (M_bind_err _ _ _ _ _ (call_eq _ _ _ _ _ Hrt)).
Qed.

(** The three ways [addPkg] fails, and the one way it succeeds. *)
Lemma addPkg_fetch_err d m err w :
  ResolveImage d (env m) = (Err err, w) →
  addPkg d m =
    (Err err, mkManager w (acc m) (log m ++ [CallResolveImage d (Err err)])).
Proof.
  intros Hri. unfold addPkg.
  by rewrite (M_bind_err _ _ _ _ _ (call_eq _ _ _ _ _ Hri)).
Qed.

Lemma addPkg_marshal_err d m t i w1 err w2 :
  ResolveImage d (env m) = (Ok (t, i), w1) →
  FromImage (v1beta1.Package d) t i w1 = (Err err, w2) →
  addPkg d m =
    (Err err,
     mkManager w2 (acc m)
       (log m ++ [CallResolveImage d (Ok (t, i));
                  CallFromImage (v1beta1.Package d) t i (Err err)])).
Proof.
  intros Hri Hfi. unfold addPkg.
  rewrite (M_bind_ok _ _ _ _ _ (call_eq _ _ _ _ _ Hri)).
  erewrite M_bind_err; last by apply call_eq.
  by rewrite -app_assoc.
Qed.

Lemma addPkg_store_err d m t i w1 p w2 err w3 :
  ResolveImage d (env m) = (Ok (t, i), w1) →
  FromImage (v1beta1.Package d) t i w1 = (Ok p, w2) →
  Store d p w2 = (Err err, w3) →
  addPkg d m =
    (Err err,
     mkManager w3 (acc m)
       (log m ++ [CallResolveImage d (Ok (t, i));
                  CallFromImage (v1beta1.Package d) t i (Ok p);
                  CallStore d p (Err err)])).
Proof.
  intros Hri Hfi Hst. unfold addPkg.
  rewrite (M_bind_ok _ _ _ _ _ (call_eq _ _ _ _ _ Hri)).
  erewrite M_bind_ok; last by apply call_eq.
  erewrite M_bind_err; last by apply call_eq.
  by rewrite -!app_assoc.
Qed.

Lemma addPkg_ok d m t i w1 p w2 w3 :
  ResolveImage d (env m) = (Ok (t, i), w1) →
  FromImage (v1beta1.Package d) t i w1 = (Ok p, w2) →
  Store d p w2 = (Ok (), w3) →
  addPkg d m =
    (Ok p,
     mkManager w3 (acc m)
       (log m ++ [CallResolveImage d (Ok (t, i));
                  CallFromImage (v1beta1.Package d) t i (Ok p);
                  CallStore d p (Ok ())])).
Proof.
  intros Hri Hfi Hst. unfold addPkg.
  rewrite (M_bind_ok _ _ _ _ _ (call_eq _ _ _ _ _ Hri)).
  erewrite M_bind_ok; last by apply call_eq.
  erewrite M_bind_ok; last by apply call_eq.
  by rewrite -!app_assoc.
Qed.

Lemma addPkg_run d m :
  ∃ evs, log (addPkg d m).2 = log m ++ evs
         ∧ acc (addPkg d m).2 = acc m
         ∧ add_run d evs (addPkg d m).1.
Proof.
  destruct (ResolveImage d (env m)) as [[[t i]|err] w1] eqn:Hri.
  2:{ rewrite (addPkg_fetch_err _ _ _ _ Hri). eexists; repeat split. constructor. }
  destruct (FromImage (v1beta1.Package d) t i w1) as [[p|err] w2] eqn:Hfi.
  2:{ rewrite (addPkg_marshal_err _ _ _ _ _ _ _ Hri Hfi).
      eexists; repeat split. constructor. }
  destruct (Store d p w2) as [[[]|err] w3] eqn:Hst.
  - rewrite (addPkg_ok _ _ _ _ _ _ _ _ Hri Hfi Hst).
    eexists; repeat split. constructor.
  - rewrite (addPkg_store_err _ _ _ _ _ _ _ _ _ Hri Hfi Hst).
    eexists; repeat split. constructor.
Qed.

(** [retrievePkg], path by path.  [df] is the finalized identity. *)
Lemma retrievePkg_unresolved d m err w :
  ResolveTag d (env m) = (Err err, w) →
  retrievePkg d m =
    (Err err, mkManager w (acc m) (log m ++ [CallResolveTag d (Err err)])).
Proof.
  intros Hrt. unfold retrievePkg.
  by rewrite (M_bind_err _ _ _ _ _ (finalizeDepVersion_err _ _ _ _ Hrt)).
Qed.

Lemma retrievePkg_cache_err d m v w1 err w2 :
  let df := v1beta1.set_Constraints d v in
  ResolveTag d (env m) = (Ok v, w1) →
  Get df w1 = (Err err, w2) →
  os.IsNotExist err = false →
  retrievePkg d m =
    (Err err,
     mkManager w2 (acc m)
       (log m ++ [CallResolveTag d (Ok v); CallGet df (Err err)])).
Proof.
  intros df Hrt Hget Hne. unfold retrievePkg.
  rewrite (M_bind_ok _ _ _ _ _ (finalizeDepVersion_ok _ _ _ _ Hrt)).
  erewrite call_eq; last done. by rewrite /= Hne /= -app_assoc.
Qed.

Lemma retrievePkg_miss d m v w1 err w2 :
  let df := v1beta1.set_Constraints d v in
  ResolveTag d (env m) = (Ok v, w1) →
  Get df w1 = (Err err, w2) →
  os.IsNotExist err = true →
  retrievePkg d m =
    addPkg df (mkManager w2 (acc m)
                 (log m ++ [CallResolveTag d (Ok v); CallGet df (Err err)])).
Proof.
  intros df Hrt Hget Hne. unfold retrievePkg.
  rewrite (M_bind_ok _ _ _ _ _ (finalizeDepVersion_ok _ _ _ _ Hrt)).
  erewrite call_eq; last done. by rewrite /= Hne /= -app_assoc.
Qed.

Lemma retrievePkg_digest_err d m v w1 p w2 err w3 :
  let df := v1beta1.set_Constraints d v in
  ResolveTag d (env m) = (Ok v, w1) →
  Get df w1 = (Ok p, w2) →
  ResolveDigest df w2 = (Err err, w3) →
  retrievePkg d m =
    (Err err,
     mkManager w3 (acc m)
       (log m ++ [CallResolveTag d (Ok v); CallGet df (Ok p);
                  CallResolveDigest df (Err err)])).
Proof.
  intros df Hrt Hget Hrd. unfold retrievePkg.
  rewrite (M_bind_ok _ _ _ _ _ (finalizeDepVersion_ok _ _ _ _ Hrt)).
  erewrite call_eq; last done. cbv beta iota.
  erewrite M_bind_err; last by apply call_eq.
  by rewrite /= -!app_assoc.
Qed.

Lemma retrievePkg_hit d m v w1 p w2 dg w3 :
  let df := v1beta1.set_Constraints d v in
  let m3 := mkManager w3 (acc m)
              (log m ++ [CallResolveTag d (Ok v); CallGet df (Ok p);
                         CallResolveDigest df (Ok dg)]) in
  ResolveTag d (env m) = (Ok v, w1) →
  Get df w1 = (Ok p, w2) →
  ResolveDigest df w2 = (Ok dg, w3) →
  retrievePkg d m =
    if bool_decide (xpkg.Digest p ≠ dg) then addPkg df m3 else (Ok p, m3).
Proof.
  intros df m3 Hrt Hget Hrd. unfold retrievePkg.
  rewrite (M_bind_ok _ _ _ _ _ (finalizeDepVersion_ok _ _ _ _ Hrt)).
  erewrite call_eq; last done. cbv beta iota.
  erewrite M_bind_ok; last by apply call_eq.
  rewrite /= -!app_assoc /=. by case_bool_decide.
Qed.

Lemma retrievePkg_run d m :
  ∃ evs, log (retrievePkg d m).2 = log m ++ evs
         ∧ acc (retrievePkg d m).2 = acc m
         ∧ retrieve_run d evs (retrievePkg d m).1.
Proof.
  destruct (ResolveTag d (env m)) as [[v|err] w1] eqn:Hrt.
  2:{ rewrite (retrievePkg_unresolved _ _ _ _ Hrt).
      eexists; repeat split. constructor. }
  set (df := v1beta1.set_Constraints d v).
  destruct (Get df w1) as [[p|err] w2] eqn:Hget.
  - destruct (ResolveDigest df w2) as [[dg|err] w3] eqn:Hrd.
    2:{ rewrite (retrievePkg_digest_err _ _ _ _ _ _ _ _ Hrt Hget Hrd).
        eexists; repeat split. constructor. }
    rewrite (retrievePkg_hit _ _ _ _ _ _ _ _ Hrt Hget Hrd).
    case_bool_decide as Hdg.
    + match goal with |- context [addPkg ?a ?b] =>
        destruct (addPkg_run a b) as (evs & Hlog & Hacc & Hrun) end.
      eexists; split; [|split; [done|]].
      * rewrite Hlog /= -app_assoc. done.
      * by apply run_hit_stale.
    + subst dg.
      eexists; repeat split. constructor.
  - destruct (os.IsNotExist err) eqn:Hne.
    + rewrite (retrievePkg_miss _ _ _ _ _ _ Hrt Hget Hne).
      match goal with |- context [addPkg ?a ?b] =>
        destruct (addPkg_run a b) as (evs & Hlog & Hacc & Hrun) end.
      eexists; split; [|split; [done|]].
      * rewrite Hlog /= -app_assoc. done.
      * by apply run_miss.
    + rewrite (retrievePkg_cache_err _ _ _ _ _ _ Hrt Hget Hne).
      eexists; repeat split. by constructor.
Qed.

End retrieval.

(** ** The recursion: [resolveAllDeps], [Resolve] *)

Section recursion.
Context {W Tag Image : Type}.
Context `{!Cache W, !ImageResolver W Tag Image, !XpkgMarshaler W Tag Image}.

Abbreviation Mgr := (Manager W Tag Image).

Implicit Types (d : Dependency) (p q e : ParsedPackage) (m : Mgr) (w : W).

Lemma for_range_app {St A} (l1 l2 : list A) (body : A → F St ()) s :
  for_range (l1 ++ l2) body s =
  F_bind (λ _, for_range l2 body) (for_range l1 body) s.
Proof.
  revert s. induction l1 as [|x l1 IH]; intros s; first done.
  rewrite /= /F_bind.
  destruct (body x s) as [[[[]|err] s1]|]; [|done..].
  by rewrite IH.
Qed.

Lemma resolveAllDeps_S fuel p :
  resolveAllDeps (S fuel) p = for_range (xpkg.Dependencies p) (visit fuel).
Proof.
  simpl. case_bool_decide as Hlen; last done.
  by destruct (xpkg.Dependencies p).
Qed.

Lemma visit_ok fuel d m e m1 :
  retrievePkg d m = (Ok e, m1) →
  visit fuel d m = resolveAllDeps fuel e (append_acc e m1).2.
Proof. intros Hr. by rewrite /visit /F_bind /lift Hr. Qed.

Lemma visit_err fuel d m err m1 :
  retrievePkg d m = (Err err, m1) →
  visit fuel d m = Some (Err err, m1).
Proof. intros Hr. by rewrite /visit /F_bind /lift Hr. Qed.

Lemma transitive_failure_propagates fuel p m err m' :
  transitive_failure fuel p m err m' →
  resolveAllDeps fuel p m = Some (Err err, m').
Proof.
  induction 1 as [fuel p ds1 d ds2 m m1 err m2 Hds Hpre Hr
                 |fuel p ds1 d ds2 m m1 e m2 err m3 Hds Hpre Hr _ IH];
    rewrite resolveAllDeps_S Hds for_range_app /F_bind Hpre /=.
  - by rewrite /F_bind (visit_err _ _ _ _ _ Hr).
  - by rewrite /F_bind (visit_ok _ _ _ _ _ Hr) IH.
Qed.

(** A relation between states of the manager that holds across a failed
    retrieval, across a retrieval followed by the append of its package, and
    is reflexive and transitive, holds across the whole recursion. *)
Section steps.
Variable T : Mgr → Mgr → Prop.
Hypothesis T_refl : ∀ m, T m m.
Hypothesis T_trans : ∀ m1 m2 m3, T m1 m2 → T m2 m3 → T m1 m3.
Hypothesis T_err : ∀ d m err m1, retrievePkg d m = (Err err, m1) → T m m1.
Hypothesis T_ok : ∀ d m e m1,
  retrievePkg d m = (Ok e, m1) → T m (append_acc e m1).2.

Lemma for_range_steps fuel ds m r m' :
  (∀ e m r m', resolveAllDeps fuel e m = Some (r, m') → T m m') →
  for_range ds (visit fuel) m = Some (r, m') → T m m'.
Proof using T_refl T_trans T_err T_ok.
  intros IH. revert m. induction ds as [|d ds IHds]; intros m.
  - intros [= <- <-]. apply T_refl.
  - rewrite /= /F_bind.
    assert (∀ r1 ma, visit fuel d m = Some (r1, ma) → T m ma) as Hvisit.
    { intros r1 ma. destruct (retrievePkg d m) as [[e|err] m1] eqn:Hr.
      - rewrite (visit_ok _ _ _ _ _ Hr). intros Hrec.
        eapply T_trans; first by eapply T_ok.
        by eapply IH.
      - rewrite (visit_err _ _ _ _ _ Hr). intros [= <- <-].
        by eapply T_err. }
    destruct (visit fuel d m) as [[[[]|err] ma]|] eqn:Hv; [|intros [= <- <-]|done].
    + intros Hrest. eapply T_trans; last by apply IHds.
      by eapply Hvisit.
    + by eapply Hvisit.
Qed.

Lemma resolveAllDeps_steps fuel p m r m' :
  resolveAllDeps fuel p m = Some (r, m') → T m m'.
Proof using T_refl T_trans T_err T_ok.
  revert p m r m'. induction fuel as [|fuel IH]; intros p m r m'; first done.
  rewrite resolveAllDeps_S. by apply for_range_steps.
Qed.

Lemma Resolve_steps fuel d m out m' :
  Resolve fuel d m = Some (out, m') → T m m'.
Proof using T_refl T_trans T_err T_ok.
  rewrite /Resolve.
  destruct (retrievePkg d m) as [[e|err] m1] eqn:Hr.
  - destruct (resolveAllDeps fuel e _) as [[[[]|err] m3]|] eqn:Hrec;
      [| |done]; intros [= <- <-];
      (eapply T_trans; first by eapply T_ok);
      by eapply resolveAllDeps_steps.
  - intros [= <- <-]. by eapply T_err.
Qed.

End steps.

(** What [Resolve] returns for accumulator is the accumulator of the
    manager. *)
Lemma Resolve_returns_acc fuel d m out m' :
  Resolve fuel d m = Some (out, m') → out.1.2 = acc m'.
Proof.
  rewrite /Resolve. destruct (retrievePkg d m) as [[e|err] m1].
  - destruct (resolveAllDeps fuel e _) as [[[[]|err] m3]|];
      [| |done]; by intros [= <- <-].
  - by intros [= <- <-].
Qed.

(** A property of the collaborators that every retrieval keeps is kept by
    the recursion. *)
Lemma Resolve_env_preserved (P : W → Prop) fuel d m out m' :
  (∀ d m, P (env m) → P (env (retrievePkg d m).2)) →
  Resolve fuel d m = Some (out, m') → P (env m) → P (env m').
Proof.
  intros HP. apply (Resolve_steps (λ m m', P (env m) → P (env m'))); auto.
  - intros d0 m0 err m1 Hr Hm0. specialize (HP d0 m0 Hm0). by rewrite Hr in HP.
  - intros d0 m0 e m1 Hr Hm0. specialize (HP d0 m0 Hm0). by rewrite Hr in HP.
Qed.

Lemma resolveAllDeps_env_preserved (P : W → Prop) fuel p m r m' :
  (∀ d m, P (env m) → P (env (retrievePkg d m).2)) →
  resolveAllDeps fuel p m = Some (r, m') → P (env m) → P (env m').
Proof.
  intros HP. apply (resolveAllDeps_steps (λ m m', P (env m) → P (env m'))); auto.
  - intros d0 m0 err m1 Hr Hm0. specialize (HP d0 m0 Hm0). by rewrite Hr in HP.
  - intros d0 m0 e m1 Hr Hm0. specialize (HP d0 m0 Hm0). by rewrite Hr in HP.
Qed.

Lemma for_range_env_preserved (P : W → Prop) fuel ds m r m' :
  (∀ d m, P (env m) → P (env (retrievePkg d m).2)) →
  for_range ds (visit fuel) m = Some (r, m') → P (env m) → P (env m').
Proof.
  intros HP. apply (for_range_steps (λ m m', P (env m) → P (env m'))); auto.
  - intros d0 m0 err m1 Hr Hm0. specialize (HP d0 m0 Hm0). by rewrite Hr in HP.
  - intros d0 m0 e m1 Hr Hm0. specialize (HP d0 m0 Hm0). by rewrite Hr in HP.
  - intros e m0 r0 m0'. by apply resolveAllDeps_env_preserved.
Qed.

(** Whatever holds of every call of [retrievePkg] holds of each retrieval
    of a traversal, and the traversal appends the packages retrieved. *)
Section retrievals.
Variable Φ : Dependency → list (Event Tag Image) → result ParsedPackage → Prop.
Hypothesis retrievePkg_Φ : ∀ d m,
  ∃ evs, log (retrievePkg d m).2 = log m ++ evs
         ∧ Φ d evs (retrievePkg d m).1.

Lemma traced_refl m : traced_by Φ m m.
Proof. exists []. by rewrite /calls_of /packages_of /= !app_nil_r. Qed.

Lemma traced_trans m1 m2 m3 :
  traced_by Φ m1 m2 → traced_by Φ m2 m3 → traced_by Φ m1 m3.
Proof.
  intros (rs1 & Hl1 & Ha1 & HΦ1) (rs2 & Hl2 & Ha2 & HΦ2).
  exists (rs1 ++ rs2). repeat split.
  - by rewrite Hl2 Hl1 /calls_of fmap_app concat_app app_assoc.
  - by rewrite Ha2 Ha1 /packages_of omap_app app_assoc.
  - by apply Forall_app.
Qed.

Lemma traced_retrieve_err d m err m1 :
  retrievePkg d m = (Err err, m1) → traced_by Φ m m1.
Proof.
  intros Hr. destruct (retrievePkg_Φ d m) as (evs & Hlog & HΦ).
  destruct (retrievePkg_run d m) as (_ & _ & Hacc & _).
  rewrite Hr /= in Hlog, HΦ, Hacc.
  exists [mkRetrieval d evs (Err err)]. repeat split.
  - by rewrite /calls_of /= app_nil_r.
  - by rewrite /packages_of /= app_nil_r.
  - by constructor.
Qed.

Lemma traced_retrieve_ok d m e m1 :
  retrievePkg d m = (Ok e, m1) → traced_by Φ m (append_acc e m1).2.
Proof.
  intros Hr. destruct (retrievePkg_Φ d m) as (evs & Hlog & HΦ).
  destruct (retrievePkg_run d m) as (_ & _ & Hacc & _).
  rewrite Hr /= in Hlog, HΦ, Hacc.
  exists [mkRetrieval d evs (Ok e)]. repeat split.
  - by rewrite /calls_of /= app_nil_r.
  - by rewrite /packages_of /= Hacc.
  - by constructor.
Qed.

Lemma resolveAllDeps_traced fuel p m r m' :
  resolveAllDeps fuel p m = Some (r, m') → traced_by Φ m m'.
Proof.
  apply resolveAllDeps_steps;
    eauto using traced_refl, traced_trans, traced_retrieve_err,
                traced_retrieve_ok.
Qed.

Lemma Resolve_traced fuel d m out m' :
  Resolve fuel d m = Some (out, m') → traced_by Φ m m' ∧ out.1.2 = acc m'.
Proof.
  intros HR. split; last by eapply Resolve_returns_acc.
  revert HR. apply Resolve_steps;
    eauto using traced_refl, traced_trans, traced_retrieve_err,
                traced_retrieve_ok.
Qed.

End retrievals.

(** C1. In [Resolve], a failure of [retrievePkg] for the root dependency is
    swallowed: the call returns a nil error, the zero [Dependency] and the
    accumulator as it was (empty on a manager that has resolved nothing
    yet).  The same failure for a dependency met in the recursion of
    [resolveAllDeps] comes back from [Resolve] as its error. *)
Theorem Resolve_root_failure_swallowed_transitive_propagated :
  (∀ fuel d m err m1,
     retrievePkg d m = (Err err, m1) →
     Resolve fuel d m = Some ((v1beta1.zero, acc m, None), m1)
     ∧ (acc m = [] →
        Resolve fuel d m = Some ((v1beta1.zero, [], None), m1)))
  ∧ (∀ fuel d m e m1 err m',
       retrievePkg d m = (Ok e, m1) →
       transitive_failure fuel e (append_acc e m1).2 err m' →
       Resolve fuel d m = Some ((v1beta1.zero, acc m', Some err), m')).
Proof.
  split.
  - intros fuel d m err m1 Hr.
    destruct (retrievePkg_run d m) as (evs & _ & Hacc & _).
    rewrite Hr /= in Hacc.
    assert (Resolve fuel d m = Some ((v1beta1.zero, acc m, None), m1)) as Hres
      by by rewrite /Resolve Hr Hacc.
    split; first done. intros Hnil. by rewrite Hres Hnil.
  - intros fuel d m e m1 err m' Hr Hfail.
    apply transitive_failure_propagates in Hfail.
    by rewrite /Resolve Hr Hfail.
Qed.

Lemma addPkg_ok_inv d m p m' :
  addPkg d m = (Ok p, m') →
  ∃ t i w1 w2,
    ResolveImage d (env m) = (Ok (t, i), w1)
    ∧ FromImage (v1beta1.Package d) t i w1 = (Ok p, w2)
    ∧ Store d p w2 = (Ok (), env m')
    ∧ acc m' = acc m
    ∧ log m' = log m ++ [CallResolveImage d (Ok (t, i));
                         CallFromImage (v1beta1.Package d) t i (Ok p);
                         CallStore d p (Ok ())].
Proof.
  destruct (ResolveImage d (env m)) as [[[t i]|err] w1] eqn:Hri;
    last by rewrite (addPkg_fetch_err _ _ _ _ Hri).
  destruct (FromImage (v1beta1.Package d) t i w1) as [[p'|err] w2] eqn:Hfi;
    last by rewrite (addPkg_marshal_err _ _ _ _ _ _ _ Hri Hfi).
  destruct (Store d p' w2) as [[[]|err] w3] eqn:Hst;
    last by rewrite (addPkg_store_err _ _ _ _ _ _ _ _ _ Hri Hfi Hst).
  rewrite (addPkg_ok _ _ _ _ _ _ _ _ Hri Hfi Hst). intros [= <- <-].
  by exists t, i, w1, w2.
Qed.


Lemma add_run_under_identity d evs r :
  add_run (Tag:=Tag) (Image:=Image) d evs r → Forall (under_identity d) evs.
Proof. destruct 1; by repeat constructor. Qed.

Lemma retrieve_run_finalized d evs r :
  retrieve_run (Tag:=Tag) (Image:=Image) d evs r → finalized_calls d evs.
Proof.
  destruct 1 as [err|v err Hne|v err evs r Hne Hadd|v p err|v p
                |v p dg evs r Hdg Hadd];
    eexists _, _; (split; first done); simpl;
    repeat (constructor; first done);
    by [|constructor|apply add_run_under_identity in Hadd].
Qed.

(** C8. Every call of [retrievePkg] starts with [ResolveTag] on the
    dependency it was given; when that fails nothing else is called; when it
    gives a version, every later call of that retrieval (cache lookup, digest
    query, fetch, parse, store) is made under the dependency whose
    constraint is that version.  The calls made by [Resolve] are a sequence
    of such retrievals, so no lookup, store or fetch is ever made under
    a constraint that was not finalized. *)
Theorem identity_finalized_before_cache_and_fetch :
  (∀ d m, ∃ evs, log (retrievePkg d m).2 = log m ++ evs
                 ∧ finalized_calls d evs)
  ∧ (∀ fuel d m out m',
       Resolve fuel d m = Some (out, m') →
       ∃ rs, log m' = log m ++ calls_of rs
             ∧ Forall (λ x, finalized_calls (r_dep x) (r_calls x)) rs).
Proof.
  assert (∀ d m, ∃ evs, log (retrievePkg d m).2 = log m ++ evs
                        ∧ finalized_calls d evs) as Hone.
  { intros d m. destruct (retrievePkg_run d m) as (evs & Hlog & _ & Hrun).
    exists evs. split; first done. by eapply retrieve_run_finalized. }
  split; first done.
  intros fuel d m out m' HR.
  destruct (Resolve_traced (λ d evs _, finalized_calls d evs) Hone _ _ _ _ _ HR)
    as [(rs & Hlog & _ & Hall) _].
  by exists rs.
Qed.

(** How a call of [retrievePkg] that returns a package got it. *)
Lemma retrievePkg_ok_inv d m q m' :
  retrievePkg d m = (Ok q, m') →
  ∃ v w1,
    ResolveTag d (env m) = (Ok v, w1)
    ∧ let df := v1beta1.set_Constraints d v in
      (∃ err w2,
         Get df w1 = (Err err, w2) ∧ os.IsNotExist err = true
         ∧ addPkg df (mkManager w2 (acc m)
                        (log m ++ [CallResolveTag d (Ok v);
                                   CallGet df (Err err)])) = (Ok q, m'))
      ∨ (∃ p w2 dg w3,
           Get df w1 = (Ok p, w2)
           ∧ ResolveDigest df w2 = (Ok dg, w3)
           ∧ let m3 := mkManager w3 (acc m)
                         (log m ++ [CallResolveTag d (Ok v);
                                    CallGet df (Ok p);
                                    CallResolveDigest df (Ok dg)]) in
             (xpkg.Digest p = dg ∧ q = p ∧ m' = m3)
             ∨ (xpkg.Digest p ≠ dg ∧ addPkg df m3 = (Ok q, m'))).
Proof.
  destruct (ResolveTag d (env m)) as [[v|err] w1] eqn:Hrt;
    last by rewrite (retrievePkg_unresolved _ _ _ _ Hrt).
  intros Hr. exists v, w1. split; first done. simpl.
  set (df := v1beta1.set_Constraints d v) in *.
  destruct (Get df w1) as [[p|err] w2] eqn:Hget.
  - right. destruct (ResolveDigest df w2) as [[dg|err] w3] eqn:Hrd;
      last by rewrite (retrievePkg_digest_err _ _ _ _ _ _ _ _ Hrt Hget Hrd) in Hr.
    rewrite (retrievePkg_hit _ _ _ _ _ _ _ _ Hrt Hget Hrd) in Hr.
    exists p, w2, dg, w3. do 2 (split; first done).
    case_bool_decide as Hdg.
    + by right.
    + left. by injection Hr as <- <-.
  - left. destruct (os.IsNotExist err) eqn:Hne;
      last by rewrite (retrievePkg_cache_err _ _ _ _ _ _ Hrt Hget Hne) in Hr.
    rewrite (retrievePkg_miss _ _ _ _ _ _ Hrt Hget Hne) in Hr.
    by exists err, w2.
Qed.

(** What became of an image that [addPkg] fetched. *)
Lemma addPkg_fetched (digest_of : Image → string) d m evs df t i :
  (∀ d p w w', Store d p w = (Ok (), w') → (Get d w').1 = Ok p) →
  (∀ pkg t i w p w',
     FromImage pkg t i w = (Ok p, w') → xpkg.Digest p = digest_of i) →
  log (addPkg d m).2 = log m ++ evs →
  CallResolveImage df (Ok (t, i)) ∈ evs →
  df = d
  ∧ ((∃ p, (addPkg d m).1 = Ok p
           ∧ CallStore d p (Ok ()) ∈ evs
           ∧ (Get d (env (addPkg d m).2)).1 = Ok p
           ∧ xpkg.Digest p = digest_of i)
     ∨ (∃ err, (addPkg d m).1 = Err err
               ∧ (CallFromImage (v1beta1.Package d) t i (Err err) ∈ evs
                  ∨ ∃ p, CallStore d p (Err err) ∈ evs))).
Proof.
  intros Hcache Hmarshal Hlog Hin.
  destruct (ResolveImage d (env m)) as [[[t' i']|err] w1] eqn:Hri.
  2:{ rewrite (addPkg_fetch_err _ _ _ _ Hri) /= in Hlog.
      apply app_inv_head in Hlog. subst evs. set_solver. }
  destruct (FromImage (v1beta1.Package d) t' i' w1) as [[p|err] w2] eqn:Hfi.
  2:{ rewrite (addPkg_marshal_err _ _ _ _ _ _ _ Hri Hfi) /= in Hlog |- *.
      apply app_inv_head in Hlog. subst evs. set_unfold in Hin.
      destruct Hin as [[= -> -> ->]|[|[]]]; last done.
      split; first done. right. exists err. set_solver. }
  destruct (Store d p w2) as [[[]|err] w3] eqn:Hst.
  - rewrite (addPkg_ok _ _ _ _ _ _ _ _ Hri Hfi Hst) /= in Hlog |- *.
    apply app_inv_head in Hlog. subst evs. set_unfold in Hin.
    destruct Hin as [[= -> -> ->]|[|[|[]]]]; try done.
    split; first done. left. exists p. split; first done.
    split; first set_solver. split; [by eapply Hcache|by eapply Hmarshal].
  - rewrite (addPkg_store_err _ _ _ _ _ _ _ _ _ Hri Hfi Hst) /= in Hlog |- *.
    apply app_inv_head in Hlog. subst evs. set_unfold in Hin.
    destruct Hin as [[= -> -> ->]|[|[|[]]]]; try done.
    split; first done. right. exists err. split; first done.
    right. exists p. set_solver.
Qed.

(** C9. With a cache that gives back what was stored last and a marshaler
    that keeps the digest of the image: a package that [addPkg] returns has
    been fetched, parsed and stored under the identity [addPkg] was given.
    In [retrievePkg], on the cache-miss path and on the stale-digest path,
    when the fetch, the parse and the store succeed, the package parsed is
    returned after it was stored under the finalized identity, and a [Get]
    for that identity right after gives it, with the digest of the image
    fetched.  Whatever image [retrievePkg] fetches, it fetches under the
    finalized identity, and either the package parsed from it is stored and
    returned in this way, or the parse or the store failed and
    [retrievePkg] returns that error. *)
Theorem fetched_package_is_stored (digest_of : Image → string) :
  (∀ d p w w', Store d p w = (Ok (), w') → (Get d w').1 = Ok p) →
  (∀ pkg t i w p w',
     FromImage pkg t i w = (Ok p, w') → xpkg.Digest p = digest_of i) →
  (∀ d m p m',
     addPkg d m = (Ok p, m') →
     ∃ t i,
       log m' = log m ++ [CallResolveImage d (Ok (t, i));
                          CallFromImage (v1beta1.Package d) t i (Ok p);
                          CallStore d p (Ok ())]
       ∧ (Get d (env m')).1 = Ok p
       ∧ xpkg.Digest p = digest_of i)
  ∧ (∀ d m v w1 err w2 t i w3 p w4 w5,
       let df := v1beta1.set_Constraints d v in
       ResolveTag d (env m) = (Ok v, w1) →
       Get df w1 = (Err err, w2) →
       os.IsNotExist err = true →
       ResolveImage df w2 = (Ok (t, i), w3) →
       FromImage (v1beta1.Package df) t i w3 = (Ok p, w4) →
       Store df p w4 = (Ok (), w5) →
       retrievePkg d m =
         (Ok p,
          mkManager w5 (acc m)
            (log m ++ [CallResolveTag d (Ok v); CallGet df (Err err);
                       CallResolveImage df (Ok (t, i));
                       CallFromImage (v1beta1.Package df) t i (Ok p);
                       CallStore df p (Ok ())]))
       ∧ (Get df w5).1 = Ok p
       ∧ xpkg.Digest p = digest_of i)
  ∧ (∀ d m v w1 p0 w2 dg w3 t i w4 p w5 w6,
       let df := v1beta1.set_Constraints d v in
       ResolveTag d (env m) = (Ok v, w1) →
       Get df w1 = (Ok p0, w2) →
       ResolveDigest df w2 = (Ok dg, w3) →
       xpkg.Digest p0 ≠ dg →
       ResolveImage df w3 = (Ok (t, i), w4) →
       FromImage (v1beta1.Package df) t i w4 = (Ok p, w5) →
       Store df p w5 = (Ok (), w6) →
       retrievePkg d m =
         (Ok p,
          mkManager w6 (acc m)
            (log m ++ [CallResolveTag d (Ok v); CallGet df (Ok p0);
                       CallResolveDigest df (Ok dg);
                       CallResolveImage df (Ok (t, i));
                       CallFromImage (v1beta1.Package df) t i (Ok p);
                       CallStore df p (Ok ())]))
       ∧ (Get df w6).1 = Ok p
       ∧ xpkg.Digest p = digest_of i)
  ∧ (∀ d m evs df t i,
       log (retrievePkg d m).2 = log m ++ evs →
       CallResolveImage df (Ok (t, i)) ∈ evs →
       (∃ v w1, ResolveTag d (env m) = (Ok v, w1)
                ∧ df = v1beta1.set_Constraints d v)
       ∧ ((∃ p, (retrievePkg d m).1 = Ok p
                ∧ CallStore df p (Ok ()) ∈ evs
                ∧ (Get df (env (retrievePkg d m).2)).1 = Ok p
                ∧ xpkg.Digest p = digest_of i)
          ∨ (∃ err, (retrievePkg d m).1 = Err err
                    ∧ (CallFromImage (v1beta1.Package df) t i (Err err) ∈ evs
                       ∨ ∃ p, CallStore df p (Err err) ∈ evs)))).
Proof.
  intros Hcache Hmarshal. split; [|split; [|split]].
  - intros d m p m' Ha.
    destruct (addPkg_ok_inv _ _ _ _ Ha)
      as (t & i & w1 & w2 & _ & Hfi & Hst & _ & Hlog).
    exists t, i. split; first done. split; first by eapply Hcache.
    by eapply Hmarshal.
  - intros d m v w1 err w2 t i w3 p w4 w5 df Hrt Hget Hne Hri Hfi Hst.
    rewrite (retrievePkg_miss _ _ _ _ _ _ Hrt Hget Hne).
    erewrite addPkg_ok; [|exact Hri|exact Hfi|exact Hst].
    rewrite /= -app_assoc /=.
    split; first done. split; [by eapply Hcache|by eapply Hmarshal].
  - intros d m v w1 p0 w2 dg w3 t i w4 p w5 w6 df Hrt Hget Hrd Hdg Hri Hfi Hst.
    rewrite (retrievePkg_hit _ _ _ _ _ _ _ _ Hrt Hget Hrd) /=.
    rewrite bool_decide_eq_true_2 //.
    erewrite addPkg_ok; [|exact Hri|exact Hfi|exact Hst].
    rewrite /= -app_assoc /=.
    split; first done. split; [by eapply Hcache|by eapply Hmarshal].
  - intros d m evs df t i Hlog Hin.
    destruct (ResolveTag d (env m)) as [[v|err] w1] eqn:Hrt.
    2:{ rewrite (retrievePkg_unresolved _ _ _ _ Hrt) /= in Hlog.
        apply app_inv_head in Hlog. subst evs. set_solver. }
    assert (∀ m0 pre,
              retrievePkg d m = addPkg (v1beta1.set_Constraints d v) m0 →
              log m0 = log m ++ pre →
              Forall (λ ev, is_fetch ev = false) pre →
              df = v1beta1.set_Constraints d v
              ∧ ((∃ p, (retrievePkg d m).1 = Ok p
                       ∧ CallStore df p (Ok ()) ∈ evs
                       ∧ (Get df (env (retrievePkg d m).2)).1 = Ok p
                       ∧ xpkg.Digest p = digest_of i)
                 ∨ (∃ err, (retrievePkg d m).1 = Err err
                           ∧ (CallFromImage (v1beta1.Package df) t i (Err err)
                                ∈ evs
                              ∨ ∃ p, CallStore df p (Err err) ∈ evs))))
      as Hadd.
    { intros m0 pre Heq Hpre Hnf. rewrite Heq in Hlog |- *.
      destruct (addPkg_run (v1beta1.set_Constraints d v) m0)
        as (evs' & Hlog' & _ & _).
      assert (evs = pre ++ evs') as ->.
      { rewrite Hlog' Hpre -app_assoc in Hlog. by apply app_inv_head in Hlog. }
      apply elem_of_app in Hin as [Hin|Hin].
      { rewrite Forall_forall in Hnf. by specialize (Hnf _ Hin). }
      destruct (addPkg_fetched digest_of _ _ _ _ _ _ Hcache Hmarshal Hlog' Hin)
        as [-> Hcases].
      split; first done.
      destruct Hcases as [(p & ? & ? & ? & ?)|(err & ? & [?|[p ?]])].
      - left. exists p. set_solver.
      - right. exists err. set_solver.
      - right. exists err. split; first done. right. exists p. set_solver. }
    destruct (Get (v1beta1.set_Constraints d v) w1) as [[p0|err] w2] eqn:Hget.
    + destruct (ResolveDigest (v1beta1.set_Constraints d v) w2)
        as [[dg|err] w3] eqn:Hrd.
      2:{ rewrite (retrievePkg_digest_err _ _ _ _ _ _ _ _ Hrt Hget Hrd) /=
            in Hlog.
          apply app_inv_head in Hlog. subst evs. set_solver. }
      pose proof (retrievePkg_hit _ _ _ _ _ _ _ _ Hrt Hget Hrd) as Heq.
      simpl in Heq. case_bool_decide.
      * edestruct Hadd as [-> Hcases]; [exact Heq|reflexivity| |].
        { by repeat constructor. }
        split; [by eauto|done].
      * rewrite Heq /= in Hlog. apply app_inv_head in Hlog. subst evs.
        set_solver.
    + destruct (os.IsNotExist err) eqn:Hne.
      * edestruct Hadd as [-> Hcases];
          [exact (retrievePkg_miss _ _ _ _ _ _ Hrt Hget Hne)|reflexivity| |].
        { by repeat constructor. }
        split; [by eauto|done].
      * rewrite (retrievePkg_cache_err _ _ _ _ _ _ Hrt Hget Hne) /= in Hlog.
        apply app_inv_head in Hlog. subst evs. set_solver.
Qed.

Lemma retrievePkg_log d m :
  ∃ evs, log (retrievePkg d m).2 = log m ++ evs ∧ True.
Proof. destruct (retrievePkg_run d m) as (evs & Hlog & _). by exists evs. Qed.

Lemma resolveAllDeps_acc fuel p m r m' :
  resolveAllDeps fuel p m = Some (r, m') → ∃ new, acc m' = acc m ++ new.
Proof.
  intros Hrec.
  destruct (resolveAllDeps_traced (λ _ _ _, True) retrievePkg_log
              _ _ _ _ _ Hrec) as (rs & _ & Hacc & _).
  by eexists.
Qed.




(** C2. When the finalized identity is in the cache, [retrievePkg] always
    asks the registry for its digest, and returns the cached package exactly
    when the two digests are equal; what it returns has the digest the
    registry gave (for a package fetched anew: with a marshaler that keeps
    the digest of the image, and a registry whose image has the digest it
    has just announced).  [Resolve] returns the accumulator the manager
    had, as it was, followed by the packages of the retrievals it made, each
    of them a run of [retrievePkg] that is digest-checked in this way. *)
Theorem cached_package_served_only_if_digest_current
    (digest_of : Image → string) :
  (∀ pkg t i w p w',
     FromImage pkg t i w = (Ok p, w') → xpkg.Digest p = digest_of i) →
  (∀ d w dg w1 t i w2,
     ResolveDigest d w = (Ok dg, w1) →
     ResolveImage d w1 = (Ok (t, i), w2) → digest_of i = dg) →
  (∀ d m v w1 p w2 q m',
     ResolveTag d (env m) = (Ok v, w1) →
     Get (v1beta1.set_Constraints d v) w1 = (Ok p, w2) →
     retrievePkg d m = (Ok q, m') →
     ∃ dg w3,
       ResolveDigest (v1beta1.set_Constraints d v) w2 = (Ok dg, w3)
       ∧ xpkg.Digest q = dg
       ∧ (q = p ↔ xpkg.Digest p = dg))
  ∧ (∀ fuel d m out m',
       Resolve fuel d m = Some (out, m') →
       ∃ rs, out.1.2 = acc m ++ packages_of rs
             ∧ log m' = log m ++ calls_of rs
             ∧ Forall digest_checked rs).
Proof.
  intros Hmarshal Hreg. split.
  - intros d m v w1 p w2 q m' Hrt Hget Hr.
    destruct (retrievePkg_ok_inv _ _ _ _ Hr) as (v' & w1' & Hrt' & Hpath).
    rewrite Hrt in Hrt'. injection Hrt' as <- <-. simpl in Hpath.
    destruct Hpath as [(err & w2' & Hget' & _)
                      |(p0 & w2' & dg & w3 & Hget' & Hrd
                        & [(Hdg & -> & ->)|[Hdg Ha]])];
      rewrite Hget in Hget'; try done; injection Hget' as <- <-.
    + exists dg, w3. by repeat split.
    + exists dg, w3. split; first done.
      destruct (addPkg_ok_inv _ _ _ _ Ha) as (t & i & w4 & w5 & Hri & Hfi & _).
      simpl in Hri.
      assert (xpkg.Digest q = dg) as Hq.
      { rewrite (Hmarshal _ _ _ _ _ _ Hfi). by eapply Hreg. }
      split; first done. split; [by intros ->|by intros ?].
  - intros fuel d m out m' HR.
    edestruct (Resolve_traced (λ d evs r, digest_checked (mkRetrieval d evs r)))
      as [(rs & Hlog & Hacc & Hall) Hout]; [|exact HR|].
    2:{ exists rs. rewrite Hout. split; [done|split; [done|]].
        eapply Forall_impl; first exact Hall. by intros []. }
    clear HR out m' d m. intros d m.
    destruct (retrievePkg_run d m) as (evs & Hlog & _ & Hrun).
    exists evs. split; first done. split; first exact Hrun. clear Hrun.
    intros df p q Hin Hout. simpl in *.
    destruct (retrievePkg d m) as [r m'] eqn:Hr. simpl in *. subst r.
    destruct (retrievePkg_ok_inv _ _ _ _ Hr) as (v & w1 & Hrt & Hpath).
    simpl in Hpath.
    destruct Hpath as [(err & w2 & Hget & Hne & Ha)
                      |(p0 & w2 & dg & w3 & Hget & Hrd
                        & [(Hdg & -> & ->)|[Hdg Ha]])].
    + destruct (addPkg_ok_inv _ _ _ _ Ha) as (t & i & w4 & w5 & _ & _ & _ & _ & Hl).
      rewrite Hlog /= -app_assoc in Hl. apply app_inv_head in Hl. subst evs.
      set_unfold in Hin. naive_solver.
    + simpl in Hlog. apply app_inv_head in Hlog. subst evs.
      set_unfold in Hin. destruct Hin as [|[[= -> ->]|[|[]]]]; try done.
      exists dg. set_solver.
    + destruct (addPkg_ok_inv _ _ _ _ Ha) as (t & i & w4 & w5 & Hri & Hfi & _ & _ & Hl).
      rewrite Hlog /= -app_assoc in Hl. apply app_inv_head in Hl. subst evs.
      set_unfold in Hin.
      destruct Hin as [|[[= -> ->]|[|[|[|[|[]]]]]]]; try done.
      exists dg. split; first set_solver.
      assert (xpkg.Digest q = dg) as Hq.
      { rewrite (Hmarshal _ _ _ _ _ _ Hfi). by eapply Hreg. }
      split; first done. right. split; first done.
      exists t, i. set_solver.
Qed.

End recursion.

(** ** The merge of validators: [Snapshot] *)

Section snapshot.
Context {W Tag Image : Type}.
Context `{!Cache W, !ImageResolver W Tag Image, !XpkgMarshaler W Tag Image}.

Abbreviation Mgr := (Manager W Tag Image).

Implicit Types (d : Dependency) (p q e : ParsedPackage) (m : Mgr).
Implicit Types (view : view_t) (k : schema.GroupVersionKind).
Implicit Types (l : list ParsedPackage).

(** The loop over the validators of one package: its entries replace those
    of the view, in whatever order the map is ranged over. *)
Lemma merge_validators_lookup view p k :
  merge_validators view p !! k =
    match xpkg.Validators p !! k with
    | Some v => Some v
    | None => view !! k
    end.
Proof.
  unfold merge_validators.
  induction (xpkg.Validators p) as [|i x vs Hi Hfold IH] using map_first_key_ind.
  - by rewrite map_fold_empty lookup_empty.
  - rewrite map_fold_insert_first_key //.
    destruct (decide (i = k)) as [->|Hne].
    + by rewrite !lookup_insert_eq.
    + by rewrite !lookup_insert_ne.
Qed.

Lemma last_declares_nil k v : ¬ last_declares [] k v.
Proof. intros (l1 & p & l2 & Hl & _). by destruct l1. Qed.

Lemma last_declares_snoc l p k v :
  last_declares (l ++ [p]) k v ↔
  xpkg.Validators p !! k = Some v
  ∨ (xpkg.Validators p !! k = None ∧ last_declares l k v).
Proof.
  split.
  - intros (l1 & q & l2 & Hl & Hq & Hnone).
    destruct l2 as [|x l2 _] using rev_ind.
    + apply app_inj_tail in Hl as [-> ->]. by left.
    + rewrite app_comm_cons app_assoc in Hl.
      apply app_inj_tail in Hl as [-> ->].
      apply Forall_app in Hnone as [Hnone Hx].
      rewrite Forall_singleton in Hx. right. split; first done.
      by exists l1, q, l2.
  - intros [Hp|[Hp (l1 & q & l2 & -> & Hq & Hnone)]].
    + exists l, p, []. by rewrite Forall_nil.
    + exists l1, q, (l2 ++ [p]). rewrite -app_assoc. split; first done.
      split; first done. apply Forall_app. by rewrite Forall_singleton.
Qed.

Lemma last_declares_none l k v :
  Forall (λ q, xpkg.Validators q !! k = None) l → ¬ last_declares l k v.
Proof.
  intros Hnone (l1 & p & l2 & -> & Hp & _).
  apply Forall_app in Hnone as [_ Hnone].
  apply Forall_cons in Hnone as [Hnone _]. congruence.
Qed.

Lemma merge_acc_lookup view l k v :
  merge_acc view l !! k = Some v ↔
  last_declares l k v
  ∨ (Forall (λ q, xpkg.Validators q !! k = None) l ∧ view !! k = Some v).
Proof.
  unfold merge_acc. induction l as [|p l IH] using rev_ind.
  - simpl. split.
    + intros Hv. right. by rewrite Forall_nil.
    + intros [Hl|[_ Hv]]; [by apply last_declares_nil in Hl|done].
  - rewrite foldl_app /= merge_validators_lookup last_declares_snoc.
    rewrite Forall_app Forall_singleton.
    destruct (xpkg.Validators p !! k) as [v'|] eqn:Hp.
    + split; first by intros [= ->]; left; left.
      intros [[Hv|[? _]]|[[_ ?] _]]; done.
    + rewrite IH. naive_solver.
Qed.

(** One turn of the loop of [Snapshot] ranges over the whole accumulator,
    the packages of the dependencies before included: if the view held
    nothing but entries of the accumulator as it was, it now is the
    last-writer view of the accumulator as it is. *)
Lemma merge_acc_extends view l new :
  (∀ k v, view !! k = Some v → last_declares l k v) →
  ∀ k v, merge_acc view (l ++ new) !! k = Some v
         ↔ last_declares (l ++ new) k v.
Proof.
  intros Hview k v. rewrite merge_acc_lookup. split; last by left.
  intros [Hl|[Hnone Hv]]; first done.
  apply Forall_app in Hnone as [Hnone _].
  by apply Hview, last_declares_none in Hv.
Qed.

Lemma Snapshot_loop_last_writer fuel deps view m view' m' :
  (∀ k v, view !! k = Some v ↔ last_declares (acc m) k v) →
  Snapshot_loop fuel deps view m = Some (Ok view', m') →
  ∀ k v, view' !! k = Some v ↔ last_declares (acc m') k v.
Proof.
  revert view m. induction deps as [|d deps IH]; intros view m Hview.
  - by intros [= <- <-].
  - simpl. destruct (Resolve fuel d m) as [[[[ud a] [err|]] m1]|] eqn:HR;
      [done| |done].
    destruct (Resolve_traced (λ _ _ _, True) retrievePkg_log _ _ _ _ _ HR)
      as [(rs & _ & Hacc & _) Ha].
    simpl in Ha. subst a. apply IH.
    rewrite Hacc. apply merge_acc_extends. intros k v. by rewrite Hview.
Qed.

(** C7. The view that [Snapshot] returns holds, for every type identifier,
    the validator of the last package of the accumulator, in accumulation
    order, that declares one for it (and no entry when no package does). *)
Theorem Snapshot_last_writer_wins fuel deps m view m' :
  Snapshot fuel deps m = Some (Ok view, m') →
  deps ≠ [] ∨ acc m = [] →
  ∀ k v, view !! k = Some v ↔ last_declares (acc m') k v.
Proof.
  unfold Snapshot. destruct deps as [|d deps].
  - intros [= <- <-] [?|Hnil]; first done. intros k v.
    rewrite Hnil lookup_empty. split; first done.
    by intros ?%last_declares_nil.
  - intros Hloop _. simpl in Hloop.
    destruct (Resolve fuel d m) as [[[[ud a] [err|]] m1]|] eqn:HR;
      [done| |done].
    destruct (Resolve_traced (λ _ _ _, True) retrievePkg_log _ _ _ _ _ HR)
      as [(rs & _ & Hacc & _) Ha].
    simpl in Ha. subst a.
    eapply Snapshot_loop_last_writer; last exact Hloop.
    rewrite Hacc. apply merge_acc_extends. intros k v.
    by rewrite lookup_empty.
Qed.

End snapshot.

(** ** The traversal of a dependency graph *)

Section graph.
Context {W Tag Image : Type}.
Context `{!Cache W, !ImageResolver W Tag Image, !XpkgMarshaler W Tag Image}.
Variable pkg_of : Dependency → ParsedPackage.
Variable known : Dependency → Prop.
Variable Inv : W → Prop.
Hypothesis graph : retrieval_graph pkg_of known Inv.

Abbreviation Mgr := (Manager W Tag Image).

Implicit Types (d : Dependency) (p q e : ParsedPackage) (m : Mgr).

Abbreviation deps_known := (deps_known known).

Lemma deps_known_pkg_of d : known d → deps_known (pkg_of d).
Proof. intros Hd d' Hd'. by eapply graph_closed. Qed.

Lemma edge_deps_known p q : deps_known p → edge pkg_of p q → deps_known q.
Proof. intros Hp (d & Hd & ->). by apply deps_known_pkg_of, Hp. Qed.

Lemma rtc_edge_deps_known p q :
  deps_known p → rtc (edge pkg_of) p q → deps_known q.
Proof. intros Hp Hrtc. induction Hrtc; eauto using edge_deps_known. Qed.

(** More fuel does not change a result. *)
Lemma resolveAllDeps_fuel_mono n k p m x :
  resolveAllDeps n p m = Some x → resolveAllDeps (n + k) p m = Some x.
Proof using Type.
  revert p m x. induction n as [|n IH]; intros p m x; first done.
  rewrite -/Nat.add Nat.add_succ_l !resolveAllDeps_S.
  generalize (xpkg.Dependencies p). intros ds. revert m.
  induction ds as [|d ds IHds]; intros m; first done.
  rewrite /= /F_bind.
  assert (∀ y, visit n d m = Some y → visit (n + k) d m = Some y) as Hv.
  { intros y. rewrite /visit /F_bind /lift.
    destruct (retrievePkg d m) as [[e|err] m1]; last done. apply IH. }
  destruct (visit n d m) as [[[[]|err] m1]|] eqn:Hvis; last done.
  - rewrite (Hv _ eq_refl). apply IHds.
  - by rewrite (Hv _ eq_refl).
Qed.

(** *** The graph alone *)

Lemma elem_of_flat_map {A B} (f : A → list B) (l : list A) (y : B) :
  y ∈ flat_map f l ↔ ∃ x, x ∈ l ∧ y ∈ f x.
Proof.
  rewrite list_elem_of_In in_flat_map.
  split; intros (x & Hx & Hy); exists x; by rewrite ?list_elem_of_In in Hx, Hy |- *.
Qed.

Lemma preorder_below_complete n p q :
  within_depth pkg_of n p →
  tc (edge pkg_of) p q → q ∈ preorder_below pkg_of n p.
Proof using Type.
  intros Hfit Htc. revert n Hfit.
  induction Htc as [p q (d & Hd & ->)|p c q (d & Hd & ->) Htc IH];
    intros [|n] Hfit; try done; simpl in *;
    apply elem_of_flat_map; exists d; (split; first done).
  - apply list_elem_of_here.
  - apply list_elem_of_further, IH, Hfit, Hd.
Qed.

Lemma followed_by_deps_app l k :
  followed_by_deps pkg_of l → followed_by_deps pkg_of k →
  followed_by_deps pkg_of (l ++ k).
Proof using Type.
  intros Hl Hk l1 q l2 d Heq Hd.
  apply app_eq_app in Heq as [l' [[-> Heq]|[-> Heq]]].
  - destruct l' as [|x l'].
    + simpl in Heq. subst k. by eapply (Hk []).
    + injection Heq as <- ->. apply elem_of_app. left. by eapply Hl.
  - by eapply Hk.
Qed.

Lemma preorder_below_followed n p :
  within_depth pkg_of n p →
  followed_by_deps pkg_of (preorder_below pkg_of n p).
Proof using Type.
  revert p. induction n as [|n IH]; intros p Hfit; first done.
  simpl in *. revert Hfit. generalize (xpkg.Dependencies p). intros ds Hfit.
  induction ds as [|d ds IHds].
  { intros l1 q l2 d' Heq. by destruct l1. }
  simpl. apply (followed_by_deps_app (_ :: _)).
  - intros l1 q l2 d' Heq Hd'. destruct l1 as [|x l1].
    + injection Heq as <- <-.
      apply preorder_below_complete; first by apply Hfit, list_elem_of_here.
      apply tc_once. by exists d'.
    + injection Heq as <- Heq.
      eapply IH; [|exact Heq|exact Hd']. apply Hfit, list_elem_of_here.
  - apply IHds. intros d' Hd'. by apply Hfit, list_elem_of_further.
Qed.

(** A finite graph without a cycle has bounded depth. *)
Lemma acyclic_within_depth p0 (nodes : list ParsedPackage) :
  (∀ q, rtc (edge pkg_of) p0 q → q ∈ nodes) →
  (∀ q, rtc (edge pkg_of) p0 q → ¬ tc (edge pkg_of) q q) →
  within_depth pkg_of (length nodes) p0.
Proof using Type.
  intros Hfin Hacyc.
  assert (∀ n path p,
    NoDup path → (∀ x, x ∈ path → x ∈ nodes ∧ tc (edge pkg_of) x p) →
    rtc (edge pkg_of) p0 p → length nodes ≤ n + length path →
    within_depth pkg_of n p) as Haux.
  { induction n as [|n IH]; intros path p Hnd Hpath Hp Hlen.
    - assert (p ∉ path) as Hnotin.
      { intros [_ Hcyc]%Hpath. by eapply Hacyc. }
      assert (p :: path ⊆+ nodes) as Hsub.
      { apply NoDup_submseteq; first by constructor.
        intros x [->|Hx]%elem_of_cons; first by apply Hfin.
        by apply Hpath. }
      apply submseteq_length in Hsub. simpl in *. lia.
    - intros d Hd.
      assert (edge pkg_of p (pkg_of d)) as Hedge by by exists d.
      apply (IH (p :: path)).
      + constructor; last done. intros [_ Hcyc]%Hpath. by eapply Hacyc.
      + intros x [->|Hx]%elem_of_cons.
        * split; first by apply Hfin. by apply tc_once.
        * destruct (Hpath _ Hx) as [Hn Htc]. split; first done.
          by eapply tc_r.
      + by eapply rtc_r.
      + simpl. lia. }
  apply (Haux _ [] p0); [constructor|by intros x ?%elem_of_nil|done|simpl; lia].
Qed.



(** *** The traversal *)

Lemma visit_graph n d m :
  known d → Inv (env m) →
  ∃ m1, Inv (env m1) ∧ acc m1 = acc m ++ [pkg_of d]
        ∧ visit n d m = resolveAllDeps n (pkg_of d) m1.
Proof.
  intros Hd Hm. destruct (graph_retrieve _ _ _ graph d m Hd Hm) as (m1 & Hr & Hm1).
  destruct (retrievePkg_run d m) as (_ & _ & Hacc & _).
  rewrite Hr /= in Hacc.
  exists (append_acc (pkg_of d) m1).2. split; first done.
  split; first by rewrite /= Hacc. by apply visit_ok.
Qed.

(** A traversal that returns has met no error, has appended the packages
    under [p] in pre-order, and has not gone deeper than its fuel. *)
Lemma resolveAllDeps_graph n p m r m' :
  deps_known p → Inv (env m) →
  resolveAllDeps n p m = Some (r, m') →
  r = Ok () ∧ Inv (env m')
  ∧ acc m' = acc m ++ preorder_below pkg_of n p
  ∧ within_depth pkg_of n p.
Proof.
  revert p m r m'. induction n as [|n IH]; intros p m r m' Hp Hm; first done.
  rewrite resolveAllDeps_S /=. revert Hp. rewrite /deps_known.
  generalize (xpkg.Dependencies p). intros ds. revert m Hm.
  induction ds as [|d ds IHds]; intros m Hm Hds.
  { intros [= <- <-]. rewrite app_nil_r. repeat split; try done.
    by intros d ?%elem_of_nil. }
  rewrite /= /F_bind.
  destruct (visit_graph n d m) as (m1 & Hm1 & Hacc1 & ->);
    [by apply Hds, list_elem_of_here|done|].
  destruct (resolveAllDeps n (pkg_of d) m1) as [[r1 ma]|] eqn:Hrec; last done.
  destruct (IH _ _ _ _ (deps_known_pkg_of d (Hds d (list_elem_of_here _ _))) Hm1 Hrec)
    as (-> & Hma & Hacca & Hfit).
  intros Hrest.
  destruct (IHds ma Hma (λ d' Hd', Hds d' (list_elem_of_further _ _ _ Hd')) Hrest)
    as (-> & Hm' & Hacc' & Hfits).
  repeat split; try done.
  - by rewrite Hacc' Hacca Hacc1 -!app_assoc.
  - intros d' [->|Hd']%elem_of_cons; [done|by apply Hfits].
Qed.

(** A traversal of a graph of depth less than the fuel returns. *)
Lemma resolveAllDeps_within_depth n p m :
  within_depth pkg_of n p → deps_known p → Inv (env m) →
  ∃ m', resolveAllDeps n p m = Some (Ok (), m').
Proof.
  revert p m. induction n as [|n IH]; intros p m Hfit Hp Hm; first done.
  rewrite resolveAllDeps_S. simpl in Hfit. revert Hfit Hp. rewrite /deps_known.
  generalize (xpkg.Dependencies p). intros ds. revert m Hm.
  induction ds as [|d ds IHds]; intros m Hm Hfit Hds; first by eexists.
  rewrite /= /F_bind.
  destruct (visit_graph n d m) as (m1 & Hm1 & Hacc1 & ->);
    [by apply Hds, list_elem_of_here|done|].
  destruct (IH (pkg_of d) m1) as [ma Hrec];
    [by apply Hfit, list_elem_of_here
    |by apply deps_known_pkg_of, Hds, list_elem_of_here|done|].
  rewrite Hrec.
  destruct (resolveAllDeps_graph _ _ _ _ _
              (deps_known_pkg_of d (Hds d (list_elem_of_here _ _))) Hm1 Hrec)
    as (_ & Hma & _).
  apply IHds; first done.
  - intros d' Hd'. by apply Hfit, list_elem_of_further.
  - intros d' Hd'. by apply Hds, list_elem_of_further.
Qed.

Lemma Resolve_fuel_mono n k d m x :
  Resolve n d m = Some x → Resolve (n + k) d m = Some x.
Proof using Type.
  rewrite /Resolve. destruct (retrievePkg d m) as [[e|err] m1]; last done.
  destruct (resolveAllDeps n e _) as [y|] eqn:Hrec; last done.
  by rewrite (resolveAllDeps_fuel_mono _ k _ _ _ Hrec).
Qed.

(** Whenever [Resolve] returns on a graph, it returns a nil error, the root
    with the type and the version of its package, and after what the
    accumulator held the packages of the graph in pre-order. *)
Lemma Resolve_graph_complete fuel d m out m' :
  known d → Inv (env m) →
  Resolve fuel d m = Some (out, m') →
  ∃ new,
    out = ({| v1beta1.Package := v1beta1.Package d;
              v1beta1.Type_ := xpkg.Type_ (pkg_of d);
              v1beta1.Constraints := xpkg.Version (pkg_of d) |},
           acc m ++ new, None)
    ∧ new = pkg_of d :: preorder_below pkg_of fuel (pkg_of d)
    ∧ (∀ q, rtc (edge pkg_of) (pkg_of d) q → q ∈ new)
    ∧ followed_by_deps pkg_of new.
Proof.
  intros Hd Hm.
  destruct (graph_retrieve _ _ _ graph d m Hd Hm) as (m1 & Hr & Hm1).
  destruct (retrievePkg_run d m) as (_ & _ & Hacc & _).
  rewrite Hr /= in Hacc. rewrite /Resolve Hr.
  set (m2 := (append_acc (pkg_of d) m1).2).
  destruct (resolveAllDeps fuel (pkg_of d) m2) as [[r m3]|] eqn:Hrec; last done.
  destruct (resolveAllDeps_graph _ _ m2 _ _ (deps_known_pkg_of d Hd) Hm1 Hrec)
    as (-> & _ & Hacc' & Hfit).
  intros [= <- <-].
  exists (pkg_of d :: preorder_below pkg_of fuel (pkg_of d)).
  split; [|split; [done|split]].
  - by rewrite Hacc' /= Hacc -app_assoc.
  - intros q [->|Htc]%rtc_tc; first by apply list_elem_of_here.
    by apply list_elem_of_further, preorder_below_complete.
  - intros l1 q l2 d' Heq Hd'. destruct l1 as [|x l1].
    + injection Heq as <- <-. apply preorder_below_complete; first done.
      apply tc_once. by exists d'.
    + injection Heq as <- Heq.
      by eapply preorder_below_followed.
Qed.

(** On a finite graph without a cycle [Resolve] returns. *)
Lemma Resolve_graph_returns d m (nodes : list ParsedPackage) fuel :
  known d → Inv (env m) →
  (∀ q, rtc (edge pkg_of) (pkg_of d) q → q ∈ nodes) →
  (∀ q, rtc (edge pkg_of) (pkg_of d) q → ¬ tc (edge pkg_of) q q) →
  length nodes ≤ fuel →
  ∃ out m', Resolve fuel d m = Some (out, m').
Proof.
  intros Hd Hm Hfin Hacyc Hfuel.
  pose proof (acyclic_within_depth _ _ Hfin Hacyc) as Hfit.
  destruct (graph_retrieve _ _ _ graph d m Hd Hm) as (m1 & Hr & Hm1).
  set (m2 := (append_acc (pkg_of d) m1).2).
  destruct (resolveAllDeps_within_depth _ _ m2 Hfit (deps_known_pkg_of d Hd) Hm1)
    as [m' Hrec].
  apply (resolveAllDeps_fuel_mono _ (fuel - length nodes)) in Hrec.
  replace (length nodes + (fuel - length nodes)) with fuel in Hrec by lia.
  rewrite /Resolve Hr -/m2 Hrec. by eexists _, _.
Qed.


End graph.

(** ** The manager on the modelled registry and cache *)

Section local_model.
Import local.

Implicit Types (d : Dependency) (p q e i : ParsedPackage) (m : LMgr) (w : World).

Lemma table_lookup_insert_eq {V} (k : string * string) (v : V) (t : Table V) :
  <[k:=v]> t !! k = Some v.
Proof.
  rewrite /lookup /table_lookup /insert /table_insert /=.
  by rewrite bool_decide_eq_true_2.
Qed.

Lemma table_lookup_insert_ne {V} (k k' : string * string) (v : V) (t : Table V) :
  k ≠ k' → <[k:=v]> t !! k' = t !! k'.
Proof.
  intros Hne. rewrite /lookup /table_lookup /insert /table_insert /=.
  by rewrite bool_decide_eq_false_2.
Qed.

Lemma table_lookup_empty {V} (k : string * string) :
  (∅ : Table V) !! k = None.
Proof. done. Qed.

Lemma cache_stored_eq w (k : string * string) i :
  cache (stored w k i) !! k = Some i.
Proof. apply table_lookup_insert_eq. Qed.

Lemma cache_stored_ne w (k k' : string * string) i :
  k ≠ k' → cache (stored w k i) !! k' = cache w !! k'.
Proof. apply table_lookup_insert_ne. Qed.

Lemma table_lookup_entry {V} (k : string * string) (v : V) (t : Table V) :
  t !! k = Some v → (k, v) ∈ entries t.
Proof.
  rewrite /lookup /table_lookup. induction (entries t) as [|[k' v'] l IH];
    first done.
  simpl. case_bool_decide as Hk.
  - intros [= <-]. subst k'. apply list_elem_of_here.
  - intros Hl. by apply list_elem_of_further, IH.
Qed.

(** The three things a retrieval can do: fail and leave everything as it
    was; serve the package from the cache, having asked for the digest only;
    fetch the image and store it, the cache having nothing or something of
    another digest. *)
Lemma local_retrievePkg_cases d m r m' :
  retrievePkg d m = (r, m') →
  acc m' = acc m
  ∧ ((env m' = env m ∧ resolve (registry (env m)) d = None
      ∧ ∃ err, r = Err err)
     ∨ (∃ q v, r = Ok q ∧ warm (env m) d q
               ∧ tags (registry (env m)) !! key d = Some v
               ∧ m' = mkManager (env m) (acc m)
                        (log m ++
                         [CallResolveTag d (Ok v);
                          CallGet (v1beta1.set_Constraints d v) (Ok q);
                          CallResolveDigest (v1beta1.set_Constraints d v)
                            (Ok (xpkg.Digest q))]))
     ∨ (∃ v i, r = Ok i
               ∧ tags (registry (env m)) !! key d = Some v
               ∧ images (registry (env m)) !! (v1beta1.Package d, v) = Some i
               ∧ env m' = stored (env m) (v1beta1.Package d, v) i
               ∧ ∀ p, cache (env m) !! (v1beta1.Package d, v) = Some p →
                      xpkg.Digest p ≠ xpkg.Digest i)).
Proof.
  intros Hr.
  destruct (retrievePkg_run d m) as (_ & _ & Hacc & _).
  rewrite Hr /= in Hacc. split; first done. clear Hacc.
  destruct (tags (registry (env m)) !! key d) as [v|] eqn:Htag.
  2:{ left. rewrite (retrievePkg_unresolved d m no_such_version (env m)) in Hr;
        first by rewrite /= Htag.
      injection Hr as <- <-. rewrite /resolve Htag. eauto. }
  assert (ResolveTag d (env m) = (Ok v, env m)) as Hrt by by rewrite /= Htag.
  set (df := v1beta1.set_Constraints d v) in *.
  assert (key df = (v1beta1.Package d, v)) as Hkey by done.
  destruct (cache (env m) !! key df) as [p|] eqn:Hc.
  - assert (Get df (env m) = (Ok p, env m)) as Hget by by rewrite /= Hc.
    destruct (images (registry (env m)) !! key df) as [i|] eqn:Hi.
    + assert (ResolveDigest df (env m) = (Ok (xpkg.Digest i), env m)) as Hrd
        by by rewrite /= Hi.
      rewrite (retrievePkg_hit _ _ _ _ _ _ _ _ Hrt Hget Hrd) in Hr.
      case_bool_decide as Hdg.
      * rewrite (addPkg_ok df _ v i (env m) i (env m) (stored (env m) (key df) i))
          /= ?Hi // in Hr.
        injection Hr as <- <-. right. right. exists v, i.
        rewrite -Hkey. repeat split; try done.
        intros p' Hp'. rewrite Hc in Hp'. by injection Hp' as <-.
      * injection Hr as <- <-. right. left. exists p, v.
        rewrite -Hdg. repeat split; try done.
        exists v, i. by rewrite -Hkey.
    + assert (ResolveDigest df (env m) = (Err no_such_image, env m)) as Hrd
        by by rewrite /= Hi.
      rewrite (retrievePkg_digest_err _ _ _ _ _ _ _ _ Hrt Hget Hrd) in Hr.
      injection Hr as <- <-. left. rewrite /resolve Htag /= -Hkey Hi. eauto.
  - assert (Get df (env m) = (Err not_found, env m)) as Hget by by rewrite /= Hc.
    rewrite (retrievePkg_miss _ _ _ _ _ _ Hrt Hget eq_refl) in Hr.
    destruct (images (registry (env m)) !! key df) as [i|] eqn:Hi.
    + rewrite (addPkg_ok df _ v i (env m) i (env m) (stored (env m) (key df) i))
        /= ?Hi // in Hr.
      injection Hr as <- <-. right. right. exists v, i.
      rewrite -Hkey. repeat split; try done.
      intros p'. by rewrite Hc.
    + rewrite (addPkg_fetch_err df _ no_such_image (env m)) /= ?Hi // in Hr.
      injection Hr as <- <-. left. rewrite /resolve Htag /= -Hkey Hi. eauto.
Qed.

Lemma local_registry_static d m :
  registry (env (retrievePkg d m).2) = registry (env m).
Proof.
  destruct (retrievePkg d m) as [r m'] eqn:Hr. simpl.
  destruct (local_retrievePkg_cases _ _ _ _ Hr)
    as (_ & [(-> & _)|[(q & v & _ & _ & _ & ->)|(v & i & _ & _ & _ & -> & _)]]);
    done.
Qed.

(** A warm identity is served from the cache, by three calls. *)
Lemma warm_retrieve d m q :
  warm (env m) d q →
  ∃ v, retrievePkg d m =
         (Ok q,
          mkManager (env m) (acc m)
            (log m ++
             [CallResolveTag d (Ok v);
              CallGet (v1beta1.set_Constraints d v) (Ok q);
              CallResolveDigest (v1beta1.set_Constraints d v)
                (Ok (xpkg.Digest q))])).
Proof.
  intros (v & i & Htag & Hc & Hi & Hdg). exists v.
  rewrite (retrievePkg_hit d m v (env m) q (env m) (xpkg.Digest i) (env m)).
  - by rewrite /= Htag.
  - by rewrite /= /key /= Hc.
  - by rewrite /= /key /= Hi.
  - rewrite bool_decide_eq_false_2; first by intros []. by rewrite Hdg.
Qed.

(** What was retrieved is warm afterwards. *)
Lemma retrieve_warm d m q m' :
  retrievePkg d m = (Ok q, m') → warm (env m') d q.
Proof.
  intros Hr.
  destruct (local_retrievePkg_cases _ _ _ _ Hr)
    as (_ & [(_ & _ & err & [=])
            |[(q' & v & [= <-] & Hw & _ & ->)
             |(v & i & [= <-] & Htag & Hi & -> & _)]]); first done.
  exists v, q. by rewrite cache_stored_eq.
Qed.

(** What is warm stays warm. *)
Lemma warm_stable d q d' m :
  warm (env m) d q → warm (env (retrievePkg d' m).2) d q.
Proof.
  intros (v & i & Htag & Hc & Hi & Hdg).
  destruct (retrievePkg d' m) as [r m'] eqn:Hr. simpl.
  destruct (local_retrievePkg_cases _ _ _ _ Hr)
    as (_ & [(-> & _)|[(q' & v' & _ & _ & _ & ->)
                    |(v' & i' & _ & Htag' & Hi' & -> & Hstale)]]);
    [by exists v, i..|].
  exists v, i. repeat split; try done.
  destruct (decide ((v1beta1.Package d', v') = (v1beta1.Package d, v)))
    as [Heq|Hne]; last by rewrite cache_stored_ne.
  rewrite Heq in Hi', Hstale. rewrite Hi in Hi'. injection Hi' as <-.
  by destruct (Hstale _ Hc).
Qed.

Lemma warm_stable_resolveAllDeps d q fuel p m r m' :
  resolveAllDeps fuel p m = Some (r, m') →
  warm (env m) d q → warm (env m') d q.
Proof.
  apply (resolveAllDeps_env_preserved (λ w, warm w d q)).
  intros d' m0. apply warm_stable.
Qed.

Lemma warm_stable_for_range d q fuel ds m r m' :
  for_range ds (visit fuel) m = Some (r, m') →
  warm (env m) d q → warm (env m') d q.
Proof.
  apply (for_range_env_preserved (λ w, warm w d q)).
  intros d' m0. apply warm_stable.
Qed.

(** The replay of a traversal. *)
Lemma replay fuel p m m' m2 :
  resolveAllDeps fuel p m = Some (Ok (), m') →
  (∀ d q, warm (env m') d q → warm (env m2) d q) →
  replayed m m' m2 (resolveAllDeps fuel p m2).
Proof.
  revert p m m' m2. induction fuel as [|fuel IH]; intros p m m' m2; first done.
  rewrite !resolveAllDeps_S. generalize (xpkg.Dependencies p). intros ds.
  revert m m2. induction ds as [|d ds IHds]; intros m m2.
  { intros [= <-] _. exists [], []. destruct m2. by rewrite /= !app_nil_r. }
  rewrite /= {1}/F_bind.
  destruct (visit fuel d m) as [[[[]|err] ma]|] eqn:Hv; [|done..].
  intros Hrest Hwarm.
  destruct (retrievePkg d m) as [[e|err] m1] eqn:Hr;
    last by rewrite (visit_err _ _ _ _ _ Hr) in Hv.
  rewrite (visit_ok _ _ _ _ _ Hr) in Hv.
  assert (warm (env m2) d e) as Hw2.
  { apply Hwarm. eapply warm_stable_for_range; first exact Hrest.
    eapply warm_stable_resolveAllDeps; first exact Hv.
    exact (retrieve_warm _ _ _ _ Hr). }
  destruct (warm_retrieve _ m2 _ Hw2) as [v Hr2].
  destruct (local_retrievePkg_cases _ _ _ _ Hr) as [Hacc1 _].
  edestruct (IH e _ ma (append_acc e (retrievePkg d m2).2).2 Hv)
    as (new1 & evs1 & Hacca & Hrec2 & Hnf1).
  { rewrite Hr2 /=. intros d' q' Hw'. apply Hwarm.
    by eapply warm_stable_for_range. }
  rewrite Hr2 /= in Hrec2.
  match type of Hrec2 with _ = Some (_, ?s) => set (m2a := s) in * end.
  destruct (IHds ma m2a Hrest) as (new2 & evs2 & Hacc' & Hloop2 & Hnf2);
    first done.
  exists (e :: new1 ++ new2),
         ([CallResolveTag d (Ok v);
            CallGet (v1beta1.set_Constraints d v) (Ok e);
            CallResolveDigest (v1beta1.set_Constraints d v)
              (Ok (xpkg.Digest e))] ++ evs1 ++ evs2).
  split; [|split].
  - rewrite Hacc' Hacca /= Hacc1 -!app_assoc. done.
  - rewrite /F_bind (visit_ok _ _ _ _ _ Hr2) Hrec2 Hloop2 /= -!app_assoc. done.
  - apply Forall_app. split; first by repeat constructor.
    by apply Forall_app.
Qed.

(** C4. [Resolve] called twice in a row on the same manager, the first call
    having retrieved the root and returned a nil error, the registry being
    the same for both calls: the second call returns the same dependency;
    it appends the very packages the first call appended (so package by
    package the digests are equal) after what the first call returned,
    which the manager had kept; and it makes no fetch, no parse and no
    store, and leaves the cache as it was. *)
Theorem Resolve_twice_served_from_cache fuel d m ud a m1 :
  (∃ e m0, retrievePkg d m = (Ok e, m0)) →
  Resolve fuel d m = Some ((ud, a, None), m1) →
  ∃ new evs,
    a = acc m ++ new
    ∧ registry (env m1) = registry (env m)
    ∧ Resolve fuel d m1 =
        Some ((ud, a ++ new, None),
              mkManager (env m1) (a ++ new) (log m1 ++ evs))
    ∧ Forall (λ ev, is_fetch ev = false) evs.
Proof.
  intros (e & m0 & Hr) HR.
  pose proof (Resolve_returns_acc _ _ _ _ _ HR) as Ha. simpl in Ha. subst a.
  assert (registry (env m1) = registry (env m)) as Hreg.
  { revert HR. apply (Resolve_steps (λ m m', registry (env m') = registry (env m)));
      [done|congruence|..].
    - intros d' m' err m'' Hr'. by rewrite -(local_registry_static d' m') Hr'.
    - intros d' m' e' m'' Hr'. by rewrite -(local_registry_static d' m') Hr'. }
  revert HR. rewrite {1}/Resolve Hr.
  destruct (resolveAllDeps fuel e _) as [[[[]|err] m3]|] eqn:Hrec; [|done..].
  intros [= <- _ <-].
  assert (warm (env m3) d e) as Hw.
  { eapply warm_stable_resolveAllDeps; first exact Hrec.
    exact (retrieve_warm _ _ _ _ Hr). }
  destruct (warm_retrieve _ m3 _ Hw) as [v Hr2].
  destruct (local_retrievePkg_cases _ _ _ _ Hr) as [Hacc0 _].
  destruct (replay _ _ _ _ (append_acc e (retrievePkg d m3).2).2 Hrec)
    as (new1 & evs1 & Hacc3 & Hrec2 & Hnf); first by rewrite Hr2.
  rewrite Hr2 /= in Hrec2. rewrite /= Hacc0 in Hacc3.
  exists (e :: new1),
         ([CallResolveTag d (Ok v);
            CallGet (v1beta1.set_Constraints d v) (Ok e);
            CallResolveDigest (v1beta1.set_Constraints d v)
              (Ok (xpkg.Digest e))] ++ evs1).
  split; [|split; [done|split]].
  - by rewrite Hacc3 -app_assoc.
  - rewrite /Resolve Hr2 /= Hrec2 /= -!app_assoc. done.
  - apply Forall_app. split; [by repeat constructor|done].
Qed.

(** A closed registry, with a cache that is coherent with it, is a graph on
    which no retrieval fails. *)
Lemma local_graph (R : Registry) :
  closed R →
  retrieval_graph (pkg_of R) (λ d, is_Some (resolve R d)) (coherent R).
Proof.
  intros Hclosed. split.
  - intros d d' [i Hi] Hd'. rewrite /pkg_of Hi /= in Hd'.
    rewrite /resolve in Hi.
    destruct (tags R !! key d) as [v|]; last done.
    apply table_lookup_entry in Hi.
    rewrite /closed Forall_forall in Hclosed.
    pose proof (Hclosed _ Hi) as Hall. simpl in Hall.
    rewrite Forall_forall in Hall. by apply Hall.
  - intros d m [i Hi] [Hreg Hcoh].
    destruct (retrievePkg d m) as [r m'] eqn:Hr. exists m'.
    destruct (local_retrievePkg_cases _ _ _ _ Hr)
      as (_ & [(_ & Hnone & _)
              |[(q & v & -> & (v' & i' & Htag & Hc & Hi' & Hdg) & _ & ->)
               |(v & i' & -> & Htag & Hi' & -> & _)]]).
    + by rewrite Hreg Hi in Hnone.
    + rewrite Hreg in Htag, Hi'.
      assert (i' = i) as -> by by rewrite /resolve Htag Hi' in Hi; injection Hi.
      rewrite (Hcoh _ _ _ Hc Hi' Hdg) /pkg_of Hi. done.
    + rewrite Hreg in Htag, Hi'.
      assert (i' = i) as -> by by rewrite /resolve Htag Hi' in Hi; injection Hi.
      rewrite /pkg_of Hi. split; first done. split; first done.
      intros k p i0.
      destruct (decide ((v1beta1.Package d, v) = k)) as [<-|Hne].
      * rewrite cache_stored_eq Hi'. by intros [= <-] [= <-].
      * rewrite cache_stored_ne //. apply Hcoh.
Qed.

End local_model.

(** ** The scenario, and the general statements on it *)

Section scenario_runs.
Import local scenario.

(** The modelled cache gives back what was stored last. *)
Lemma local_store_get (d : Dependency) (p : ParsedPackage) (w w' : World) :
  Store d p w = (Ok (), w') → (Get d w').1 = Ok p.
Proof.
  intros [= <-].
  by rewrite /= /lookup /table_lookup /= bool_decide_eq_true_2.
Qed.

(** The modelled marshaler keeps the digest of the image. *)
Lemma local_marshal_digest (pkg t : string) (i : ParsedPackage)
    (w : World) (p : ParsedPackage) (w' : World) :
  FromImage pkg t i w = (Ok p, w') → xpkg.Digest p = xpkg.Digest i.
Proof. by intros [= <- _]. Qed.

(** The image the modelled registry serves has the digest it announces. *)
Lemma local_registry_digest (d : Dependency) (w : World) (dg : string)
    (w1 : World) (t : string) (i : ParsedPackage) (w2 : World) :
  ResolveDigest d w = (Ok dg, w1) →
  ResolveImage d w1 = (Ok (t, i), w2) → xpkg.Digest i = dg.
Proof.
  simpl. destruct (images (registry w) !! key d) as [i'|] eqn:Hi; last done.
  intros [= <- <-]. rewrite Hi. by intros [= _ <- _].
Qed.

Lemma closed_reg : closed reg.
Proof. repeat constructor; by eexists. Qed.


Lemma coherent_empty (R : Registry) :
  coherent R {| registry := R; cache := ∅ |}.
Proof. split; first done. by intros k p i. Qed.

(** The graph of the scenario: A, and B under it. *)
Lemma edge_reg_pkgA q : edge (pkg_of reg) pkgA q → q = pkgB.
Proof. intros (d & Hd & ->). by apply list_elem_of_singleton in Hd as ->. Qed.

Lemma edge_reg_pkgB q : ¬ edge (pkg_of reg) pkgB q.
Proof. intros (d & Hd & _). by apply elem_of_nil in Hd. Qed.

Lemma reachable_reg q :
  rtc (edge (pkg_of reg)) pkgA q → q = pkgA ∨ q = pkgB.
Proof.
  intros [->|(c & ->%edge_reg_pkgA & Hq)]%rtc_inv; first by left.
  apply rtc_inv in Hq as [->|(c & ?%edge_reg_pkgB & _)]; [by right|done].
Qed.

Lemma tc_first_step {A} (R : relation A) x z :
  tc R x z → ∃ y, R x y ∧ (y = z ∨ tc R y z).
Proof. destruct 1; eauto. Qed.

Lemma acyclic_reg q :
  rtc (edge (pkg_of reg)) pkgA q → ¬ tc (edge (pkg_of reg)) q q.
Proof.
  intros [->| ->]%reachable_reg Hcyc.
  - apply tc_first_step in Hcyc as (c & ->%edge_reg_pkgA & [?|Hc]); first done.
    by apply tc_first_step in Hc as (c & ?%edge_reg_pkgB & _).
  - by apply tc_first_step in Hcyc as (c & ?%edge_reg_pkgB & _).
Qed.


(** C3. On a dependency graph where no retrieval fails, whenever [Resolve]
    returns it returns a nil error, the root dependency with the type and
    the version of the package it resolved to, and an accumulator that
    holds, after what it held before, the root package followed by the
    packages under it depth first, each before the packages of the
    dependencies it declares: every package that can be reached from the
    root is there.  [Resolve] does return when the graph is finite and has
    no cycle.  In the scenario (A@^1.0 is A@1.2.0 and declares B@^2.0,
    which is B@2.3.0) a manager that has resolved nothing yet returns
    A@1.2.0 then B@2.3.0, and the dependency A with the type of the package
    A and the version 1.2.0. *)
Theorem Resolve_complete_in_preorder :
  (∀ (W Tag Image : Type) (C : Cache W) (I : ImageResolver W Tag Image)
     (X : XpkgMarshaler W Tag Image)
     (pkg_of : Dependency → ParsedPackage) (known : Dependency → Prop)
     (Inv : W → Prop),
     retrieval_graph pkg_of known Inv →
     ∀ (d : Dependency) (m : Manager W Tag Image),
       known d → Inv (env m) →
       (∀ fuel out m',
          Resolve fuel d m = Some (out, m') →
          ∃ new,
            out = ({| v1beta1.Package := v1beta1.Package d;
                      v1beta1.Type_ := xpkg.Type_ (pkg_of d);
                      v1beta1.Constraints := xpkg.Version (pkg_of d) |},
                   acc m ++ new, None)
            ∧ new = pkg_of d :: preorder_below pkg_of fuel (pkg_of d)
            ∧ (∀ q, rtc (edge pkg_of) (pkg_of d) q → q ∈ new)
            ∧ followed_by_deps pkg_of new)
       ∧ (∀ nodes : list ParsedPackage,
            (∀ q, rtc (edge pkg_of) (pkg_of d) q → q ∈ nodes) →
            (∀ q, rtc (edge pkg_of) (pkg_of d) q → ¬ tc (edge pkg_of) q q) →
            ∀ fuel, length nodes ≤ fuel →
              ∃ out m', Resolve fuel d m = Some (out, m')))
  ∧ (∀ fuel, 2 ≤ fuel →
       fst <$> Resolve fuel depA fresh =
         Some ({| v1beta1.Package := "A";
                  v1beta1.Type_ := xpkg.Type_ pkgA;
                  v1beta1.Constraints := "1.2.0" |},
               [pkgA; pkgB], None)).
Proof.
  split.
  - intros W Tag Image C I X pkg_of known Inv Hgraph d m Hd Hm. split.
    + intros fuel out m'. by eapply Resolve_graph_complete.
    + intros nodes Hfin Hacyc fuel Hfuel. by eapply Resolve_graph_returns.
  - intros fuel Hfuel.
    assert (∃ m', Resolve 2 depA fresh =
              Some (({| v1beta1.Package := "A";
                        v1beta1.Type_ := xpkg.Type_ pkgA;
                        v1beta1.Constraints := "1.2.0" |},
                     [pkgA; pkgB], None), m')) as [m' HR]
      by (eexists; vm_compute; reflexivity).
    replace fuel with (2 + (fuel - 2)) by lia.
    by rewrite (Resolve_fuel_mono _ _ _ _ _ HR).
Qed.

(** The general statement of C3 on the graph of the scenario. *)
Lemma Resolve_complete_in_preorder_witness :
  ∃ new,
    fst <$> Resolve 2 depA fresh =
      Some ({| v1beta1.Package := "A";
               v1beta1.Type_ := xpkg.Type_ (pkg_of reg depA);
               v1beta1.Constraints := xpkg.Version (pkg_of reg depA) |},
            new, None)
    ∧ (∀ q, rtc (edge (pkg_of reg)) pkgA q → q ∈ new)
    ∧ followed_by_deps (pkg_of reg) new.
Proof.
  destruct (proj1 Resolve_complete_in_preorder _ _ _ _ _ _ _ _ _
              (local_graph reg closed_reg) depA fresh
              (ex_intro _ pkgA eq_refl) (coherent_empty reg))
    as [Hcomplete Hreturns].
  destruct (Hreturns [pkgA; pkgB]
              (λ q Hq, match reachable_reg q Hq with
                       | or_introl e => eq_ind_r (λ x, x ∈ [pkgA; pkgB])
                                          (list_elem_of_here _ _) e
                       | or_intror e => eq_ind_r (λ x, x ∈ [pkgA; pkgB])
                                          (list_elem_of_further _ _ _
                                             (list_elem_of_here _ _)) e
                       end)
              acyclic_reg 2 (le_n 2))
    as (out & m' & HR).
  destruct (Hcomplete 2 out m' HR) as (new & -> & _ & Hall & Hfollow).
  exists new. rewrite HR. split; [reflexivity|split; [exact Hall|exact Hfollow]].
Defined.


(** C1 on the scenario: C is not in the registry; and, in a registry
    without B, A is retrieved and the retrieval of B fails. *)
Lemma Resolve_root_failure_swallowed_transitive_propagated_witness :
  fst <$> Resolve 2 depC fresh = Some (v1beta1.zero, [], None)
  ∧ fst <$> Resolve 2 depA fresh_without_B =
      Some (v1beta1.zero, [pkgA], Some no_such_version).
Proof.
  split.
  - edestruct (proj1 Resolve_root_failure_swallowed_transitive_propagated
                 2 depC fresh) as [HR _]; first (vm_compute; reflexivity).
    rewrite HR. vm_compute. reflexivity.
  - erewrite (proj2 Resolve_root_failure_swallowed_transitive_propagated
                2 depA fresh_without_B); cycle 1.
    + vm_compute. reflexivity.
    + eapply (failure_here 1 pkgA [] depB []);
        [reflexivity|reflexivity|vm_compute; reflexivity].
    + vm_compute. reflexivity.
Defined.



(** C2 on the scenario, the cache holding A@1.2.0 with another digest than
    the registry. *)
Lemma cached_package_served_only_if_digest_current_witness :
  (∃ dg w3,
     ResolveDigest (v1beta1.set_Constraints depA "1.2.0") (env outdated)
       = (Ok dg, w3)
     ∧ xpkg.Digest pkgA = dg
     ∧ (pkgA = pkgA_old ↔ xpkg.Digest pkgA_old = dg))
  ∧ (∃ out m' (rs : list (Retrieval (Tag:=string) (Image:=ParsedPackage))),
       Resolve 2 depA outdated = Some (out, m')
       ∧ out.1.2 = acc outdated ++ packages_of rs
       ∧ Forall digest_checked rs).
Proof.
  destruct (cached_package_served_only_if_digest_current xpkg.Digest
              local_marshal_digest local_registry_digest)
    as [Hone Hall].
  split.
  - eapply (Hone depA outdated "1.2.0" (env outdated) pkgA_old (env outdated));
      vm_compute; reflexivity.
  - assert (∃ out m', Resolve 2 depA outdated = Some (out, m'))
      as (out & m' & HR) by (eexists _, _; vm_compute; reflexivity).
    destruct (Hall _ _ _ _ _ HR) as (rs & Hout & _ & Hrs).
    exists out, m', rs. split; [exact HR|split; [exact Hout|exact Hrs]].
Defined.

(** C4 on the scenario. *)
Lemma Resolve_twice_served_from_cache_witness :
  ∃ ud m1 evs,
    Resolve 2 depA fresh = Some ((ud, [pkgA; pkgB], None), m1)
    ∧ Resolve 2 depA m1 =
        Some ((ud, [pkgA; pkgB; pkgA; pkgB], None),
              mkManager (env m1) [pkgA; pkgB; pkgA; pkgB] (log m1 ++ evs))
    ∧ Forall (λ ev, is_fetch ev = false) evs.
Proof.
  assert (∃ ud m1, Resolve 2 depA fresh = Some ((ud, [pkgA; pkgB], None), m1))
    as (ud & m1 & HR) by (eexists _, _; vm_compute; reflexivity).
  destruct (Resolve_twice_served_from_cache 2 depA fresh ud [pkgA; pkgB] m1)
    as (new & evs & Hnew & _ & HR2 & Hnf); [|exact HR|].
  { eexists _, _. vm_compute. reflexivity. }
  change (acc fresh ++ new) with new in Hnew. subst new.
  exists ud, m1, evs. split; [exact HR|split; [exact HR2|exact Hnf]].
Defined.

(** C7 on the scenario with the second root C: A, B and C all have a
    validator for [T]; C is the last in the accumulator. *)
Lemma Snapshot_last_writer_wins_witness :
  ∃ view m',
    Snapshot 1 [depA; depC] fresh_with_C = Some (Ok view, m')
    ∧ view !! T = Some 3%N
    ∧ last_declares (acc m') T 3%N.
Proof.
  assert (match Snapshot 1 [depA; depC] fresh_with_C with
          | Some (Ok view, _) => view !! T
          | _ => None
          end = Some 3%N) as Hview by (vm_compute; reflexivity).
  destruct (Snapshot 1 [depA; depC] fresh_with_C) as [[[view|err] m']|] eqn:HS;
    [|discriminate Hview..].
  exists view, m'. split; [reflexivity|split; [exact Hview|]].
  pose proof (Snapshot_last_writer_wins 1 [depA; depC] fresh_with_C view m' HS)
    as Hlast.
  assert ([depA; depC] ≠ [] ∨ acc fresh_with_C = []) as Hdeps
    by (left; discriminate).
  apply (Hlast Hdeps T 3%N). exact Hview.
Defined.

(** C8 on the scenario. *)
Lemma identity_finalized_before_cache_and_fetch_witness :
  ∃ out m' rs,
    Resolve 2 depA fresh = Some (out, m')
    ∧ log m' = log fresh ++ calls_of rs
    ∧ Forall (λ x, finalized_calls (r_dep x) (r_calls x)) rs.
Proof.
  assert (∃ out m', Resolve 2 depA fresh = Some (out, m'))
    as (out & m' & HR) by (eexists _, _; vm_compute; reflexivity).
  destruct (proj2 identity_finalized_before_cache_and_fetch _ _ _ _ _ HR)
    as (rs & Hlog & Hrs).
  exists out, m', rs. split; [exact HR|split; [exact Hlog|exact Hrs]].
Defined.

(** C9 on the scenario: A@1.2.0 retrieved for an empty cache, and for a
    cache that holds it with a digest the registry no longer has. *)
Lemma fetched_package_is_stored_witness :
  (∃ m', retrievePkg depA fresh = (Ok pkgA, m')
         ∧ (Get (v1beta1.set_Constraints depA "1.2.0") (env m')).1 = Ok pkgA)
  ∧ (∃ m', retrievePkg depA outdated = (Ok pkgA, m')
           ∧ (Get (v1beta1.set_Constraints depA "1.2.0") (env m')).1
             = Ok pkgA).
Proof.
  destruct (fetched_package_is_stored xpkg.Digest
              local_store_get local_marshal_digest)
    as (_ & Hmiss & Hstale & _).
  split.
  - edestruct (Hmiss depA fresh "1.2.0" (env fresh) not_found (env fresh)
                 "1.2.0" pkgA (env fresh) pkgA (env fresh))
      as (Hr & Hget & _); [vm_compute; reflexivity..|].
    eexists. split; [exact Hr|exact Hget].
  - edestruct (Hstale depA outdated "1.2.0" (env outdated) pkgA_old
                 (env outdated) "d1" (env outdated) "1.2.0" pkgA
                 (env outdated) pkgA (env outdated))
      as (Hr & Hget & _);
      [vm_compute; reflexivity|vm_compute; reflexivity|vm_compute; reflexivity
      |discriminate|vm_compute; reflexivity..|].
    eexists. split; [exact Hr|exact Hget].
Defined.

(** ** Where the properties fail as the specification words them *)

(** The freshness invariant fails for a manager that is used again after
    the registry changed.  The manager resolved A@^1.0 when A@1.2.0 had the
    digest d0: its accumulator and its cache hold that package.  The
    registry now has A@1.2.0 with the digest d1.  [Resolve] finds the
    package in the cache, sees the other digest, fetches the new package,
    appends it, and returns the whole accumulator with a nil error, the
    package with the digest d0 first. *)
Lemma Resolve_returns_superseded_package :
  (∃ ud m',
     Resolve 2 depA reused = Some ((ud, [pkgA_old; pkgA; pkgB], None), m'))
  ∧ ¬ returns_only_current 2 depA reused.
Proof.
  assert (∃ ud m', Resolve 2 depA reused
                   = Some ((ud, [pkgA_old; pkgA; pkgB], None), m'))
    as (ud & m' & HR) by (eexists _, _; vm_compute; reflexivity).
  split; first by eauto.
  intros Hfresh.
  assert (xpkg.Digest pkgA_old = xpkg.Digest pkgA) as Hdg; last done.
  apply (Hfresh _ _ ("A", "1.2.0") pkgA_old pkgA HR).
  - vm_compute. reflexivity.
  - vm_compute. reflexivity.
  - apply list_elem_of_here.
Qed.

(** Idempotence fails when the first call could not retrieve its root: the
    registry resolves A@^1.0 to 1.2.0 and has no image under that tag.  The
    first call misses the cache, fails to fetch, and returns a nil error and
    nothing; nothing was stored, so the second call misses the cache and
    calls fetch again. *)
Lemma Resolve_twice_fetches_again :
  (∃ m1 m2,
     Resolve 1 depA fresh_without_image
       = Some ((v1beta1.zero, [], None), m1)
     ∧ Resolve 1 depA m1 = Some ((v1beta1.zero, [], None), m2)
     ∧ log m2 =
         log m1 ++ [CallResolveTag depA (Ok "1.2.0");
                    CallGet (v1beta1.set_Constraints depA "1.2.0")
                      (Err not_found);
                    CallResolveImage (v1beta1.set_Constraints depA "1.2.0")
                      (Err no_such_image)])
  ∧ ¬ second_call_from_cache 1 depA fresh_without_image.
Proof.
  set (evs := [CallResolveTag depA (Ok "1.2.0");
               CallGet (v1beta1.set_Constraints depA "1.2.0")
                 (Err not_found);
               CallResolveImage (v1beta1.set_Constraints depA "1.2.0")
                 (Err no_such_image)]
              : list (Event string ParsedPackage)).
  set (m1 := mkManager (env fresh_without_image) [] evs).
  set (m2 := mkManager (env fresh_without_image) [] (evs ++ evs)).
  assert (Resolve 1 depA fresh_without_image
          = Some ((v1beta1.zero, [], None), m1)) as H1
    by (vm_compute; reflexivity).
  assert (Resolve 1 depA m1 = Some ((v1beta1.zero, [], None), m2)) as H2
    by (vm_compute; reflexivity).
  split.
  - exists m1, m2. split; [exact H1|split; [exact H2|reflexivity]].
  - intros Hidem.
    destruct (Hidem _ _ _ _ H1 H2) as (_ & _ & evs' & Hlog & Hnf).
    apply app_inv_head in Hlog. subst evs'.
    rewrite !Forall_cons in Hnf. destruct Hnf as (_ & _ & Hf & _).
    discriminate Hf.
Qed.

(** Write-through fails when the store fails: with a cache that cannot be
    written, [retrievePkg] for A@^1.0 misses the cache, fetches and parses
    A@1.2.0, fails to store it and returns the error of the store; a [Get]
    for A@1.2.0 right after finds nothing. *)
Lemma fetched_and_not_stored :
  (∃ m',
     retrievePkg (Cache0:=read_only_cache) depA fresh = (Err read_only, m')
     ∧ CallResolveImage (v1beta1.set_Constraints depA "1.2.0")
         (Ok ("1.2.0", pkgA)) ∈ log m'
     ∧ (Get (Cache:=read_only_cache)
          (v1beta1.set_Constraints depA "1.2.0") (env m')).1
       = Err not_found)
  ∧ ¬ write_through (Cache0:=read_only_cache) xpkg.Digest depA fresh.
Proof.
  set (df := v1beta1.set_Constraints depA "1.2.0").
  set (evs := [CallResolveTag depA (Ok "1.2.0");
               CallGet df (Err not_found);
               CallResolveImage df (Ok ("1.2.0", pkgA));
               CallFromImage "A" "1.2.0" pkgA (Ok pkgA);
               CallStore df pkgA (Err read_only)]
              : list (Event string ParsedPackage)).
  assert (retrievePkg (Cache0:=read_only_cache) depA fresh
          = (Err read_only, mkManager (env fresh) [] evs)) as Hr
    by (vm_compute; reflexivity).
  split.
  - eexists. split; first exact Hr.
    split; [|vm_compute; reflexivity].
    apply list_elem_of_further, list_elem_of_further, list_elem_of_here.
  - intros Hwt.
    destruct (Hwt evs df "1.2.0" pkgA) as (p & Hget & _).
    + by rewrite Hr.
    + apply list_elem_of_further, list_elem_of_further, list_elem_of_here.
    + rewrite Hr in Hget. vm_compute in Hget. discriminate Hget.
Qed.

End scenario_runs.

(** * Further properties of the manager *)

Section failing_calls.
Context {W Tag Image : Type}.
Context `{!Cache W, !ImageResolver W Tag Image, !XpkgMarshaler W Tag Image}.

Abbreviation Mgr := (Manager W Tag Image).
Abbreviation Rtr := (Retrieval (Tag:=Tag) (Image:=Image)).

Implicit Types (d : Dependency) (p q e : ParsedPackage) (m : Mgr).

Lemma add_run_last_call d evs (r : result ParsedPackage) :
  add_run (Tag:=Tag) (Image:=Image) d evs r →
  ∃ init c,
    evs = init ++ [c]
    ∧ Forall (λ ev, ev_error ev = None) init
    ∧ ¬ cache_miss c
    ∧ match r with
      | Ok _ => ev_error c = None
      | Err err => ev_error c = Some err
      end.
Proof.
  assert (∀ c : Event Tag Image,
            (∀ d' r', c ≠ CallGet d' r') → ¬ cache_miss c) as Hnot.
  { intros c Hc (d' & err & -> & _). by eapply Hc. }
  destruct 1 as [err|t i err|t i p err|t i p].
  - exists [], (CallResolveImage d (Err err)).
    split; [done|split; [done|split; [by apply Hnot|done]]].
  - exists [CallResolveImage d (Ok (t, i))],
           (CallFromImage (v1beta1.Package d) t i (Err err)).
    split; [done|split; [by repeat constructor|split; [by apply Hnot|done]]].
  - exists [CallResolveImage d (Ok (t, i));
            CallFromImage (v1beta1.Package d) t i (Ok p)],
           (CallStore d p (Err err)).
    split; [done|split; [by repeat constructor|split; [by apply Hnot|done]]].
  - exists [CallResolveImage d (Ok (t, i));
            CallFromImage (v1beta1.Package d) t i (Ok p)],
           (CallStore d p (Ok ())).
    split; [done|split; [by repeat constructor|split; [by apply Hnot|done]]].
Qed.

Lemma retrieve_run_last_call d evs (r : result ParsedPackage) :
  retrieve_run (Tag:=Tag) (Image:=Image) d evs r →
  ∃ init c,
    evs = init ++ [c]
    ∧ Forall (λ ev, ev_error ev = None ∨ cache_miss ev) init
    ∧ ¬ cache_miss c
    ∧ match r with
      | Ok _ => ev_error c = None
      | Err err => ev_error c = Some err
      end.
Proof.
  assert (∀ c : Event Tag Image,
            (∀ d' r', c ≠ CallGet d' r') → ¬ cache_miss c) as Hnot.
  { intros c Hc (d' & err & -> & _). by eapply Hc. }
  destruct 1 as [err|v err Hne|v err evs r Hne Hadd|v p err|v p
                |v p dg evs r Hdg Hadd].
  - exists [], (CallResolveTag d (Err err)).
    split; [done|split; [done|split; [by apply Hnot|done]]].
  - exists [CallResolveTag d (Ok v)],
           (CallGet (v1beta1.set_Constraints d v) (Err err)).
    split; [done|split; [by repeat constructor; left|split; [|done]]].
    intros (d' & err' & [= _ <-] & Hmiss). congruence.
  - destruct (add_run_last_call _ _ _ Hadd) as (init & c & -> & Hinit & Hc & Hr).
    exists (CallResolveTag d (Ok v)
            :: CallGet (v1beta1.set_Constraints d v) (Err err) :: init), c.
    split; [done|split; [|done]].
    constructor; first by left. constructor; first by right; eexists _, _.
    eapply Forall_impl; first exact Hinit. by left.
  - exists [CallResolveTag d (Ok v);
            CallGet (v1beta1.set_Constraints d v) (Ok p)],
           (CallResolveDigest (v1beta1.set_Constraints d v) (Err err)).
    split; [done|split; [by repeat constructor; left|split; [by apply Hnot|done]]].
  - exists [CallResolveTag d (Ok v);
            CallGet (v1beta1.set_Constraints d v) (Ok p)],
           (CallResolveDigest (v1beta1.set_Constraints d v)
              (Ok (xpkg.Digest p))).
    split; [done|split; [by repeat constructor; left|split; [by apply Hnot|done]]].
  - destruct (add_run_last_call _ _ _ Hadd) as (init & c & -> & Hinit & Hc & Hr).
    exists (CallResolveTag d (Ok v)
            :: CallGet (v1beta1.set_Constraints d v) (Ok p)
            :: CallResolveDigest (v1beta1.set_Constraints d v) (Ok dg)
            :: init), c.
    split; [done|split; [|done]].
    do 3 (constructor; first by left).
    eapply Forall_impl; first exact Hinit. by left.
Qed.

(** X1. [retrievePkg] stops at the first call that fails, but for a cache
    lookup that fails with a not-exist error: of the calls it made, all but
    the last succeeded or were such a lookup; it returns a package when the
    last call succeeded, and the error of the last call when that failed. *)
Theorem retrievePkg_stops_at_first_failure d m :
  ∃ init c,
    log (retrievePkg d m).2 = log m ++ init ++ [c]
    ∧ Forall (λ ev, ev_error ev = None ∨ cache_miss ev) init
    ∧ ¬ cache_miss c
    ∧ match (retrievePkg d m).1 with
      | Ok _ => ev_error c = None
      | Err err => ev_error c = Some err
      end.
Proof.
  destruct (retrievePkg_run d m) as (evs & Hlog & _ & Hrun).
  destruct (retrieve_run_last_call _ _ _ Hrun) as (init & c & -> & Hinit & Hc & Hr).
  by exists init, c.
Qed.

(** *** The trail of a recursion *)

Lemma trail_nil {A} m (a : A) : trail m m (Ok a) ([] : list Rtr).
Proof.
  rewrite /trail /calls_of /packages_of /= !app_nil_r. by repeat split.
Qed.

Lemma trail_app {A B} m1 m2 m3 (a : A) (r : result B) (rs1 rs2 : list Rtr) :
  trail m1 m2 (Ok a) rs1 → trail m2 m3 r rs2 → trail m1 m3 r (rs1 ++ rs2).
Proof.
  intros (Hl1 & Ha1 & Hs1 & Hok1) (Hl2 & Ha2 & Hs2 & Hr2).
  split; [|split; [|split]].
  - by rewrite Hl2 Hl1 /calls_of fmap_app concat_app app_assoc.
  - by rewrite Ha2 Ha1 /packages_of omap_app app_assoc.
  - by apply Forall_app.
  - destruct r as [b|err]; first by apply Forall_app.
    destruct Hr2 as (rs0 & x & -> & Hok0 & Hx).
    exists (rs1 ++ rs0), x. rewrite app_assoc. split; first done.
    split; [by apply Forall_app|done].
Qed.

Lemma trail_retrieve_err {A} d m err m1 :
  retrievePkg d m = (Err err, m1) →
  ∃ evs, trail (A:=A) m m1 (Err err) [mkRetrieval d evs (Err err)].
Proof.
  intros Hr. destruct (retrievePkg_run d m) as (evs & Hlog & Hacc & Hrun).
  rewrite Hr /= in Hlog, Hacc, Hrun. exists evs.
  split; [|split; [|split]].
  - by rewrite /calls_of /= app_nil_r.
  - by rewrite /packages_of /= app_nil_r.
  - by constructor.
  - by exists [], (mkRetrieval d evs (Err err)).
Qed.

Lemma trail_retrieve_ok d m e m1 :
  retrievePkg d m = (Ok e, m1) →
  ∃ evs, trail m (append_acc e m1).2 (Ok ()) [mkRetrieval d evs (Ok e)].
Proof.
  intros Hr. destruct (retrievePkg_run d m) as (evs & Hlog & Hacc & Hrun).
  rewrite Hr /= in Hlog, Hacc, Hrun. exists evs.
  split; [|split; [|split]].
  - by rewrite /calls_of /= app_nil_r.
  - by rewrite /packages_of /= Hacc.
  - by constructor.
  - constructor; last done. by exists e.
Qed.

Lemma visit_trail fuel d m r m' :
  (∀ e m r m', resolveAllDeps fuel e m = Some (r, m') →
               ∃ rs, trail m m' r rs) →
  visit fuel d m = Some (r, m') →
  ∃ x rs, r_dep x = d ∧ trail m m' r (x :: rs).
Proof.
  intros IH. destruct (retrievePkg d m) as [[e|err] m1] eqn:Hr.
  - rewrite (visit_ok _ _ _ _ _ Hr). intros Hrec.
    destruct (trail_retrieve_ok _ _ _ _ Hr) as [evs Hx].
    destruct (IH _ _ _ _ Hrec) as [rs Hrs].
    exists (mkRetrieval d evs (Ok e)), rs. split; first done.
    by apply (trail_app _ _ _ _ _ [_] rs Hx).
  - rewrite (visit_err _ _ _ _ _ Hr). intros [= <- <-].
    destruct (trail_retrieve_err (A:=()) _ _ _ _ Hr) as [evs Hx].
    by exists (mkRetrieval d evs (Err err)), [].
Qed.

Lemma for_range_trail fuel ds m r m' :
  (∀ e m r m', resolveAllDeps fuel e m = Some (r, m') →
               ∃ rs, trail m m' r rs) →
  for_range ds (visit fuel) m = Some (r, m') → ∃ rs, trail m m' r rs.
Proof.
  intros IH. revert m. induction ds as [|d ds IHds]; intros m.
  - intros [= <- <-]. exists []. apply trail_nil.
  - rewrite /= /F_bind.
    destruct (visit fuel d m) as [[[[]|err] ma]|] eqn:Hv; [| |done].
    + intros Hrest.
      destruct (visit_trail _ _ _ _ _ IH Hv) as (x & rs1 & _ & H1).
      destruct (IHds _ Hrest) as [rs2 H2].
      exists ((x :: rs1) ++ rs2). by eapply trail_app.
    + intros [= <- <-].
      destruct (visit_trail _ _ _ _ _ IH Hv) as (x & rs1 & _ & H1).
      by exists (x :: rs1).
Qed.

Lemma resolveAllDeps_trail fuel p m r m' :
  resolveAllDeps fuel p m = Some (r, m') → ∃ rs, trail m m' r rs.
Proof.
  revert p m r m'. induction fuel as [|fuel IH]; intros p m r m'; first done.
  rewrite resolveAllDeps_S. by apply for_range_trail.
Qed.

(** X3. What [Resolve] returns, against the retrievals it made.  There is at
    least one, the first is that of the root, and none comes after one that
    failed.  The accumulator gains the packages of those that succeeded, in
    order.  The error returned is that of the last retrieval when it failed
    and was not the root's; it is nil when all succeeded, and when the
    root's failed.  The dependency returned is zero unless all succeeded;
    then it has the name that was given, and the type and the version of
    the root package (not the type that was given, nor the version the
    resolver chose). *)
Theorem Resolve_trail fuel d m ud a err m' :
  Resolve fuel d m = Some ((ud, a, err), m') →
  ∃ (x : Rtr) rs,
    r_dep x = d
    ∧ log m' = log m ++ calls_of (x :: rs)
    ∧ a = acc m ++ packages_of (x :: rs)
    ∧ Forall (λ y, retrieve_run (r_dep y) (r_calls y) (r_out y)) (x :: rs)
    ∧ match err with
      | Some err' =>
          ud = v1beta1.zero
          ∧ ∃ rs0 y, rs = rs0 ++ [y]
                     ∧ Forall succeeded (x :: rs0) ∧ r_out y = Err err'
      | None =>
          (ud = v1beta1.zero ∧ rs = [] ∧ ∃ err', r_out x = Err err')
          ∨ (Forall succeeded (x :: rs)
             ∧ ∃ root, r_out x = Ok root
                       ∧ ud = {| v1beta1.Package := v1beta1.Package d;
                                 v1beta1.Type_ := xpkg.Type_ root;
                                 v1beta1.Constraints := xpkg.Version root |})
      end.
Proof.
  rewrite /Resolve. destruct (retrievePkg d m) as [[e|err0] m1] eqn:Hr.
  - destruct (trail_retrieve_ok _ _ _ _ Hr) as (evs & Hx).
    destruct (resolveAllDeps fuel e _) as [[r m3]|] eqn:Hrec; last done.
    destruct (resolveAllDeps_trail _ _ _ _ _ Hrec) as [rs Hrs].
    pose proof (trail_app _ _ _ _ _ [_] rs Hx Hrs) as (Hlog & Hacc & Hshape & Hres).
    destruct r as [[]|err1]; intros [= <- <- <- <-];
      exists (mkRetrieval d evs (Ok e)), rs;
      (split; [done|split; [done|split; [done|split; [done|]]]]).
    + right. split; first done. by exists e.
    + split; first done.
      destruct Hrs as (_ & _ & _ & rs0 & y & -> & Hok0 & Hy).
      exists rs0, y. split; first done. split; last done.
      constructor; last done. by exists e.
  - intros [= <- <- <- <-].
    destruct (trail_retrieve_err (A:=()) _ _ _ _ Hr) as (evs & Hlog & Hacc & Hshape & _).
    exists (mkRetrieval d evs (Err err0)), [].
    split; [done|split; [done|split; [done|split; [done|]]]].
    left. split; first done. split; first done. by exists err0.
Qed.

(** *** When the manager fetches, and what it stores *)

Ltac split_calls :=
  repeat match goal with
         | H : [] = ?a ++ _ :: _ |- _ => by destruct a
         | H : _ :: _ = ?a ++ _ :: _ |- _ =>
             destruct a; simpl in H; injection H as ? H; subst
         end.

Lemma add_run_store_fresh d evs (r : result ParsedPackage) :
  add_run (Tag:=Tag) (Image:=Image) d evs r →
  store_fresh evs
  ∧ ∀ a df r' b, evs = a ++ CallResolveImage df r' :: b → a = [] ∧ df = d.
Proof.
  destruct 1 as [err|t i err|t i p err|t i p]; split.
  all: try (intros a df p' r' b Heq; split_calls; try done;
            by exists [], t, i).
  all: intros a df r' b Heq; split_calls; done.
Qed.

Lemma retrieve_run_guarded d evs (r : result ParsedPackage) :
  retrieve_run (Tag:=Tag) (Image:=Image) d evs r →
  fetch_guarded evs ∧ store_fresh evs.
Proof.
  destruct 1 as [err|v err Hne|v err evs r Hne Hadd|v p err|v p
                |v p dg evs r Hdg Hadd].
  1,2,4,5: split; [intros a df r' b Heq|intros a df p' r' b Heq];
           split_calls; done.
  - destruct (add_run_store_fresh _ _ _ Hadd) as [Hstore Hfetch]. split.
    + intros a df r' b Heq.
      destruct a as [|? a]; first done. injection Heq as <- Heq.
      destruct a as [|? a]; first done. injection Heq as <- Heq.
      destruct (Hfetch _ _ _ _ Heq) as [-> ->].
      left. by exists [CallResolveTag d (Ok v)], err.
    + intros a df p' r' b Heq.
      destruct a as [|? a]; first done. injection Heq as <- Heq.
      destruct a as [|? a]; first done. injection Heq as <- Heq.
      destruct (Hstore _ _ _ _ _ Heq) as (a0 & t & i & ->).
      by exists (CallResolveTag d (Ok v)
                 :: CallGet (v1beta1.set_Constraints d v) (Err err) :: a0),
                t, i.
  - destruct (add_run_store_fresh _ _ _ Hadd) as [Hstore Hfetch]. split.
    + intros a df r' b Heq.
      destruct a as [|? a]; first done. injection Heq as <- Heq.
      destruct a as [|? a]; first done. injection Heq as <- Heq.
      destruct a as [|? a]; first done. injection Heq as <- Heq.
      destruct (Hfetch _ _ _ _ Heq) as [-> ->].
      right. by exists [CallResolveTag d (Ok v)], p, dg.
    + intros a df p' r' b Heq.
      destruct a as [|? a]; first done. injection Heq as <- Heq.
      destruct a as [|? a]; first done. injection Heq as <- Heq.
      destruct a as [|? a]; first done. injection Heq as <- Heq.
      destruct (Hstore _ _ _ _ _ Heq) as (a0 & t & i & ->).
      by exists (CallResolveTag d (Ok v)
                 :: CallGet (v1beta1.set_Constraints d v) (Ok p)
                 :: CallResolveDigest (v1beta1.set_Constraints d v) (Ok dg)
                 :: a0), t, i.
Qed.

(** X12. The manager fetches only what the cache does not have or has with
    another digest than the registry, and stores only what it has just
    fetched and parsed: in every retrieval that [Resolve] makes, a call of
    [ResolveImage] comes right after a not-exist answer of the cache for
    the same identity, or right after a package found and a digest that
    differs from its own; and a call of [Store] comes right after the
    [FromImage] that gave the package stored and the [ResolveImage], under
    the same identity, that gave the image. *)
Theorem fetch_only_when_missing_or_stale fuel d m out m' :
  Resolve fuel d m = Some (out, m') →
  ∃ rs : list Rtr,
    log m' = log m ++ calls_of rs
    ∧ Forall (λ x, fetch_guarded (r_calls x) ∧ store_fresh (r_calls x)) rs.
Proof.
  intros HR.
  edestruct (Resolve_traced (λ _ evs _, fetch_guarded evs ∧ store_fresh evs))
    as [(rs & Hlog & _ & Hall) _]; [|exact HR|by exists rs].
  intros d0 m0. destruct (retrievePkg_run d0 m0) as (evs & Hlog & _ & Hrun).
  exists evs. split; first done. by eapply retrieve_run_guarded.
Qed.

End failing_calls.

Section accumulator.
Context {W Tag Image : Type}.
Context `{!Cache W, !ImageResolver W Tag Image, !XpkgMarshaler W Tag Image}.

Abbreviation Mgr := (Manager W Tag Image).

Implicit Types (d : Dependency) (p q e : ParsedPackage) (m : Mgr).
Implicit Types (view : view_t) (k : schema.GroupVersionKind).

Lemma Snapshot_loop_app fuel (l1 l2 : list Dependency) view m :
  Snapshot_loop fuel (l1 ++ l2) view m =
    match Snapshot_loop fuel l1 view m with
    | Some (Ok v, m1) => Snapshot_loop fuel l2 v m1
    | Some (Err err, m1) => Some (Err err, m1)
    | None => None
    end.
Proof.
  revert view m. induction l1 as [|d l1 IH]; intros view m; first done.
  simpl. destruct (Resolve fuel d m) as [[[[ud a] [err|]] m1]|]; [done| |done].
  apply IH.
Qed.

Lemma Snapshot_loop_acc fuel deps view m r m' :
  Snapshot_loop fuel deps view m = Some (r, m') →
  ∃ new, acc m' = acc m ++ new.
Proof.
  revert view m. induction deps as [|d deps IH]; intros view m.
  - intros [= <- <-]. exists []. by rewrite app_nil_r.
  - simpl. destruct (Resolve fuel d m) as [[[[ud a] [err|]] m1]|] eqn:HR;
      [| |done];
      destruct (Resolve_traced (λ _ _ _, True) retrievePkg_log _ _ _ _ _ HR)
        as [(rs & _ & Hacc & _) _].
    + intros [= <- <-]. by eexists.
    + intros Hrest. destruct (IH _ _ Hrest) as [new Hnew].
      exists (packages_of rs ++ new). by rewrite Hnew Hacc app_assoc.
Qed.

(** X2. The accumulator only grows.  [addPkg] and [retrievePkg] do not
    touch it; [resolveAllDeps], [Resolve] and [Snapshot] append to it,
    whether they return an error or not: what it held when they were called
    is still there, in the same order, at the front; [Resolve] returns the
    accumulator of the manager itself, earlier packages included. *)
Theorem accumulator_only_grows :
  (∀ d m, acc (addPkg d m).2 = acc m ∧ acc (retrievePkg d m).2 = acc m)
  ∧ (∀ fuel p m r m',
       resolveAllDeps fuel p m = Some (r, m') →
       ∃ new, acc m' = acc m ++ new)
  ∧ (∀ fuel d m out m',
       Resolve fuel d m = Some (out, m') →
       ∃ new, acc m' = acc m ++ new ∧ out.1.2 = acc m')
  ∧ (∀ fuel deps m r m',
       Snapshot fuel deps m = Some (r, m') →
       ∃ new, acc m' = acc m ++ new).
Proof.
  split; [|split; [|split]].
  - intros d m. split.
    + by destruct (addPkg_run d m) as (_ & _ & Hacc & _).
    + by destruct (retrievePkg_run d m) as (_ & _ & Hacc & _).
  - intros fuel p m r m'. apply resolveAllDeps_acc.
  - intros fuel d m out m' HR.
    destruct (Resolve_traced (λ _ _ _, True) retrievePkg_log _ _ _ _ _ HR)
      as [(rs & _ & Hacc & _) Hout].
    by exists (packages_of rs).
  - intros fuel deps m r m'. apply Snapshot_loop_acc.
Qed.

(** X4. [Snapshot] stops at the first root whose resolution returns an
    error: it returns that error and no view, and the roots after it are
    not resolved (the manager is left as that resolution left it). *)
Theorem Snapshot_stops_at_first_error fuel ds1 d ds2 m v1 m1 ud a err m2 :
  Snapshot fuel ds1 m = Some (Ok v1, m1) →
  Resolve fuel d m1 = Some ((ud, a, Some err), m2) →
  Snapshot fuel (ds1 ++ d :: ds2) m = Some (Err err, m2).
Proof.
  rewrite /Snapshot. intros H1 HR. by rewrite Snapshot_loop_app H1 /= HR.
Qed.

(** X5. A root whose retrieval fails is passed over in silence.  When the
    retrieval of every root fails (in the states that satisfy [Inv], which
    the failing retrievals keep), [Snapshot] still returns a nil error, and
    leaves the accumulator as it was; on a manager that had accumulated
    nothing the view returned is empty. *)
Theorem Snapshot_passes_over_unretrievable_roots (Inv : W → Prop) fuel deps m :
  Inv (env m) →
  (∀ d m0, d ∈ deps → Inv (env m0) →
           ∃ err m1, retrievePkg d m0 = (Err err, m1) ∧ Inv (env m1)) →
  ∃ view m',
    Snapshot fuel deps m = Some (Ok view, m')
    ∧ acc m' = acc m
    ∧ (acc m = [] → view = ∅).
Proof.
  rewrite /Snapshot. generalize (∅ : view_t). intros view0 Hm Hfail.
  revert view0 m Hm. induction deps as [|d deps IH]; intros view0 m Hm.
  - by exists view0, m.
  - destruct (Hfail d m (list_elem_of_here _ _) Hm) as (err & m1 & Hr & Hm1).
    destruct (retrievePkg_run d m) as (_ & _ & Hacc & _).
    rewrite Hr /= in Hacc.
    destruct (IH (λ d' m0 Hd', Hfail d' m0 (list_elem_of_further _ _ _ Hd'))
                (merge_acc view0 (acc m1)) m1 Hm1)
      as (view & m' & Hloop & Hacc' & Hview).
    exists view, m'. rewrite /= /Resolve Hr Hloop. split; first done.
    split; first by rewrite Hacc' Hacc.
    intros Hnil. rewrite Hacc Hnil in Hview. by apply Hview.
Qed.

Lemma last_declares_exists (l : list ParsedPackage) k :
  (∃ v, last_declares l k v)
  ↔ ∃ p, p ∈ l ∧ is_Some (xpkg.Validators p !! k).
Proof.
  induction l as [|p l IH] using rev_ind.
  - split.
    + intros [v Hv]. by apply last_declares_nil in Hv.
    + intros (p & Hp & _). by apply elem_of_nil in Hp.
  - split.
    + intros [v [Hv|[Hnone Hv]]%last_declares_snoc].
      * exists p. split; [apply elem_of_app; right; apply list_elem_of_here|].
        by eexists.
      * destruct (proj1 IH (ex_intro _ v Hv)) as (q & Hq & Hk).
        exists q. split; [by apply elem_of_app; left|done].
    + intros (q & Hq & Hk).
      destruct (xpkg.Validators p !! k) as [v|] eqn:Hp.
      * exists v. apply last_declares_snoc. by left.
      * apply elem_of_app in Hq as [Hq|Hq%list_elem_of_singleton].
        -- destruct (proj2 IH (ex_intro _ q (conj Hq Hk))) as [v Hv].
           exists v. apply last_declares_snoc. by right.
        -- subst q. rewrite Hp in Hk. by destruct Hk.
Qed.

(** X6. With at least one root, or on a manager that had accumulated
    nothing, the view that [Snapshot] returns has an entry for exactly the
    type identifiers for which some package of the accumulator declares a
    validator.  [Snapshot] of no root returns an empty view and the manager
    as it was, whatever the packages of its accumulator declare.  In every
    case a validator of the view is declared for its type identifier by a
    package of the accumulator. *)
Theorem Snapshot_view_domain fuel deps m view m' :
  Snapshot fuel deps m = Some (Ok view, m') →
  (deps ≠ [] ∨ acc m = [] →
   ∀ k, is_Some (view !! k)
        ↔ ∃ p, p ∈ acc m' ∧ is_Some (xpkg.Validators p !! k))
  ∧ (deps = [] → view = ∅ ∧ m' = m)
  ∧ (∀ k v, view !! k = Some v →
            ∃ p, p ∈ acc m' ∧ xpkg.Validators p !! k = Some v).
Proof.
  intros HS.
  assert (deps = [] → view = ∅ ∧ m' = m) as Hnone.
  { intros ->. unfold Snapshot in HS. by injection HS as <- <-. }
  assert (deps ≠ [] ∨ acc m = [] →
          ∀ k v, view !! k = Some v ↔ last_declares (acc m') k v) as Hlast.
  { revert HS. unfold Snapshot. destruct deps as [|d deps].
    - intros [= <- <-] [?|Hnil]; first done. intros k v.
      rewrite Hnil lookup_empty. split; first done.
      by intros ?%last_declares_nil.
    - intros Hloop _. simpl in Hloop.
      destruct (Resolve fuel d m) as [[[[ud a] [err|]] m1]|] eqn:HR;
        [done| |done].
      destruct (Resolve_traced (λ _ _ _, True) retrievePkg_log _ _ _ _ _ HR)
        as [(rs & _ & Hacc & _) Ha].
      simpl in Ha. subst a.
      eapply Snapshot_loop_last_writer; last exact Hloop.
      rewrite Hacc. apply merge_acc_extends. intros k v.
      by rewrite lookup_empty. }
  split; [|split; first done].
  - intros Hdeps k. rewrite -last_declares_exists.
    split; intros [v Hv]; exists v; by apply Hlast.
  - intros k v Hv. destruct deps as [|d deps].
    + destruct (Hnone eq_refl) as [-> _]. by rewrite lookup_empty in Hv.
    + apply Hlast in Hv as (l1 & p & l2 & Hl & Hp & _); last by left.
      exists p. split; last done. rewrite Hl. apply elem_of_app. right.
      apply list_elem_of_here.
Qed.

Lemma foldr_insert_union view
    (l : list (schema.GroupVersionKind * validate.SchemaValidator)) :
  foldr (λ kv vw, <[kv.1 := kv.2]> vw) view l = list_to_map l ∪ view.
Proof.
  induction l as [|[k v] l IH]; simpl.
  - by rewrite left_id_L.
  - by rewrite IH insert_union_l.
Qed.

Lemma foldl_foldr_reverse {A B} (f : A → B → A) (a : A) (l : list B) :
  foldl f a l = foldr (λ x y, f y x) a (reverse l).
Proof.
  revert a. induction l as [|x l IH]; intros a; first done.
  by rewrite reverse_cons foldr_snoc /= IH.
Qed.

(** X7. The loop over the validators of a package gives the same view in
    whatever order the range visits the entries of the map: the entries of
    the package over those the view had. *)
Theorem merge_validators_any_order p view
    (entries : list (schema.GroupVersionKind * validate.SchemaValidator)) :
  entries ≡ₚ map_to_list (xpkg.Validators p) →
  merge_validators_ranged entries view = merge_validators view p
  ∧ merge_validators view p = xpkg.Validators p ∪ view.
Proof.
  intros Hperm.
  assert (merge_validators view p = xpkg.Validators p ∪ view) as Hunion.
  { apply map_eq. intros k. rewrite merge_validators_lookup lookup_union.
    destruct (xpkg.Validators p !! k), (view !! k); done. }
  split; last done. rewrite Hunion /merge_validators_ranged.
  rewrite foldl_foldr_reverse foldr_insert_union. f_equal.
  rewrite -(list_to_map_to_list (xpkg.Validators p)).
  apply list_to_map_proper.
  - rewrite reverse_Permutation Hperm. apply NoDup_fst_map_to_list.
  - by rewrite reverse_Permutation.
Qed.

End accumulator.

(** ** The constructor *)

Section new_manager.
Context {W Tag Image : Type}.

Abbreviation Opt := (Option (W:=W) (Tag:=Tag) (Image:=Image)).

Lemma resolver_options_keep_cache (opts : list Opt) (m : mstruct.t W Tag Image) :
  Forall resolver_option opts →
  mstruct.c (foldl (λ m o, o m) m opts) = mstruct.c m.
Proof.
  intros Hopts. revert m.
  induction Hopts as [|o opts [r ->] _ IH]; intros m; first done.
  by rewrite /= IH.
Qed.

Lemma cache_options_keep_resolver (opts : list Opt) (m : mstruct.t W Tag Image) :
  Forall cache_option opts →
  mstruct.i (foldl (λ m o, o m) m opts) = mstruct.i m.
Proof.
  intros Hopts. revert m.
  induction Hopts as [|o opts [c ->] _ IH]; intros m; first done.
  by rewrite /= IH.
Qed.

Lemma options_keep_marshaler_and_acc (opts : list Opt)
    (m : mstruct.t W Tag Image) :
  Forall (λ o, cache_option o ∨ resolver_option o) opts →
  mstruct.x (foldl (λ m o, o m) m opts) = mstruct.x m
  ∧ mstruct.acc (foldl (λ m o, o m) m opts) = mstruct.acc m.
Proof.
  intros Hopts. revert m.
  induction Hopts as [|o opts [[c ->]|[r ->]] _ IH]; intros m; first done.
  - simpl. by destruct (IH (WithCache c m)) as [-> ->].
  - simpl. by destruct (IH (WithResolver r m)) as [-> ->].
Qed.

(** X8. [New] fails exactly when the constructor of the local cache fails,
    or that of the marshaler after it, with the error of the constructor:
    the options are not looked at, so that a cache given by [WithCache]
    does not spare the construction of the local one.  Otherwise the
    options are applied in order: the cache is the one of the last
    [WithCache] whatever the options before it did, the resolver the one of
    the last [WithResolver]; without such an option it is the one that was
    constructed.  With options of these two kinds the marshaler is always
    the one constructed, and the accumulator is empty. *)
Theorem New_options_in_order :
  (∀ NewLocal NewMarshaler (NewResolver : ImageResolver W Tag Image)
     (opts : list Opt) err,
     New NewLocal NewMarshaler NewResolver opts = Err err
     ↔ NewLocal = Err err ∨ (∃ c, NewLocal = Ok c ∧ NewMarshaler = Err err))
  ∧ (∀ c0 x0 (r0 : ImageResolver W Tag Image) (opts1 opts2 : list Opt) c,
       Forall resolver_option opts2 →
       ∃ m, New (Ok c0) (Ok x0) r0 (opts1 ++ WithCache c :: opts2) = Ok m
            ∧ mstruct.c m = c)
  ∧ (∀ c0 x0 (r0 : ImageResolver W Tag Image) (opts1 opts2 : list Opt) r,
       Forall cache_option opts2 →
       ∃ m, New (Ok c0) (Ok x0) r0 (opts1 ++ WithResolver r :: opts2) = Ok m
            ∧ mstruct.i m = r)
  ∧ (∀ c0 x0 (r0 : ImageResolver W Tag Image) (opts : list Opt),
       Forall (λ o, cache_option o ∨ resolver_option o) opts →
       ∃ m, New (Ok c0) (Ok x0) r0 opts = Ok m
            ∧ mstruct.x m = x0
            ∧ mstruct.acc m = []
            ∧ (Forall resolver_option opts → mstruct.c m = c0)
            ∧ (Forall cache_option opts → mstruct.i m = r0)).
Proof.
  split; [|split; [|split]].
  - intros [c|err0] [x|err1] r opts err; rewrite /New; split;
      try (intros [= ->]); try done; eauto;
      intros [[=]|(c' & [=] & [=])]; by subst.
  - intros c0 x0 r0 opts1 opts2 c Hopts2. eexists. split; first done.
    by rewrite foldl_app /= resolver_options_keep_cache.
  - intros c0 x0 r0 opts1 opts2 r Hopts2. eexists. split; first done.
    by rewrite foldl_app /= cache_options_keep_resolver.
  - intros c0 x0 r0 opts Hopts. eexists. split; first done.
    destruct (options_keep_marshaler_and_acc opts (mstruct.mk c0 r0 x0 []) Hopts)
      as [Hx Hacc].
    split; first done. split; first done. split.
    + intros Hres. by rewrite resolver_options_keep_cache.
    + intros Hcache. by rewrite cache_options_keep_resolver.
Qed.

End new_manager.

(** ** More on the modelled registry and cache *)

Section served_again.
Import local.

Implicit Types (d : Dependency) (p q e : ParsedPackage) (m : LMgr).

Lemma warm_same_identity (w : World) d d2 q :
  v1beta1.Package d2 = v1beta1.Package d →
  tags (registry w) !! key d2 = tags (registry w) !! key d →
  warm w d q → warm w d2 q.
Proof.
  intros Hpkg Htags (v & i & Htag & Hc & Hi & Hdg).
  exists v, i. by rewrite Hpkg Htags.
Qed.

(** X9. On the modelled registry and cache, a package that [retrievePkg]
    returned for a dependency is served from the cache from then on: after
    any [Resolve] on the same manager, a retrieval of a dependency on the
    same package whose constraint the registry resolves to the same version
    (the dependency itself, to begin with) returns the same package, by the
    finalisation, one cache lookup and one digest query, with no fetch, and
    leaves cache and registry as they were. *)
Theorem retrieved_once_served_from_cache d m q m1 :
  retrievePkg d m = (Ok q, m1) →
  ∀ d2 m2,
    v1beta1.Package d2 = v1beta1.Package d →
    tags (registry (env m)) !! key d2 = tags (registry (env m)) !! key d →
    m2 = m1 ∨ (∃ fuel d' out, Resolve fuel d' m1 = Some (out, m2)) →
    ∃ v, retrievePkg d2 m2 =
           (Ok q,
            mkManager (env m2) (acc m2)
              (log m2 ++
               [CallResolveTag d2 (Ok v);
                CallGet (v1beta1.set_Constraints d2 v) (Ok q);
                CallResolveDigest (v1beta1.set_Constraints d2 v)
                  (Ok (xpkg.Digest q))])).
Proof.
  intros Hr d2 m2 Hpkg Htags Hlater.
  pose proof (retrieve_warm _ _ _ _ Hr) as Hw.
  pose proof (local_registry_static d m) as Hreg. rewrite Hr /= in Hreg.
  apply warm_retrieve. destruct Hlater as [->|(fuel & d' & out & HR)].
  - apply (warm_same_identity _ d); [done|by rewrite Hreg|done].
  - assert (registry (env m2) = registry (env m1)) as Hreg2.
    { revert HR.
      apply (Resolve_steps (λ m m', registry (env m') = registry (env m)));
        [done|congruence|..].
      - intros d0 m0 err m0' Hr0. by rewrite -(local_registry_static d0 m0) Hr0.
      - intros d0 m0 e m0' Hr0. by rewrite -(local_registry_static d0 m0) Hr0. }
    apply (warm_same_identity _ d); [done|by rewrite Hreg2 Hreg|].
    exact (Resolve_env_preserved (λ w, warm w d q) _ _ _ _ _
             (λ d0 m0, warm_stable d q d0 m0) HR Hw).
Qed.

Lemma last_declares_app (l1 l2 : list ParsedPackage)
    (k : schema.GroupVersionKind) (v : validate.SchemaValidator) :
  last_declares (l1 ++ l2) k v ↔
  last_declares l2 k v
  ∨ (Forall (λ q, xpkg.Validators q !! k = None) l2 ∧ last_declares l1 k v).
Proof.
  induction l2 as [|p l2 IH] using rev_ind.
  - rewrite app_nil_r. split; first by right.
    intros [Hv|[_ Hv]]; [by apply last_declares_nil in Hv|done].
  - rewrite app_assoc !last_declares_snoc IH Forall_app Forall_singleton.
    destruct (xpkg.Validators p !! k) as [v'|]; naive_solver.
Qed.

(** The second of two calls of [Resolve] in a row, the first having
    retrieved the root and returned a nil error. *)
Lemma Resolve_replayed fuel d m ud a m1 :
  (∃ e m0, retrievePkg d m = (Ok e, m0)) →
  Resolve fuel d m = Some ((ud, a, None), m1) →
  ∃ new evs,
    acc m1 = acc m ++ new
    ∧ Resolve fuel d m1 =
        Some ((ud, acc m1 ++ new, None),
              mkManager (env m1) (acc m1 ++ new) (log m1 ++ evs)).
Proof.
  intros (e & m0 & Hr). rewrite {1}/Resolve Hr.
  destruct (resolveAllDeps fuel e _) as [[[[]|err] m3]|] eqn:Hrec; [|done..].
  intros [= <- _ <-].
  assert (warm (env m3) d e) as Hw.
  { eapply warm_stable_resolveAllDeps; first exact Hrec.
    exact (retrieve_warm _ _ _ _ Hr). }
  destruct (warm_retrieve _ m3 _ Hw) as [v Hr2].
  destruct (local_retrievePkg_cases _ _ _ _ Hr) as [Hacc0 _].
  destruct (replay _ _ _ _ (append_acc e (retrievePkg d m3).2).2 Hrec)
    as (new1 & evs1 & Hacc3 & Hrec2 & _); first by rewrite Hr2.
  rewrite Hr2 /= in Hrec2. rewrite /= Hacc0 in Hacc3.
  exists (e :: new1),
         ([CallResolveTag d (Ok v);
           CallGet (v1beta1.set_Constraints d v) (Ok e);
           CallResolveDigest (v1beta1.set_Constraints d v)
             (Ok (xpkg.Digest e))] ++ evs1).
  split; first by rewrite Hacc3 -app_assoc.
  rewrite /Resolve Hr2 /= Hrec2 /= -!app_assoc. done.
Qed.

(** X11. On the modelled registry and cache, a root that is listed twice
    makes no difference to the view: if [Snapshot] of one root, which was
    retrieved, returns a view, [Snapshot] of that root twice returns the
    same view (the packages of the root are in the accumulator twice). *)
Theorem Snapshot_root_twice fuel d m (view : view_t) m1 :
  (∃ e m0, retrievePkg d m = (Ok e, m0)) →
  Snapshot fuel [d] m = Some (Ok view, m1) →
  ∃ new m2,
    acc m1 = acc m ++ new
    ∧ Snapshot fuel [d; d] m = Some (Ok view, m2)
    ∧ acc m2 = acc m ++ new ++ new.
Proof.
  intros Hroot. rewrite /Snapshot /=.
  destruct (Resolve fuel d m) as [[[[ud a] [err|]] m1']|] eqn:HR; [done| |done].
  intros [= <- <-].
  pose proof (Resolve_returns_acc _ _ _ _ _ HR) as Ha. simpl in Ha. subst a.
  destruct (Resolve_replayed _ _ _ _ _ _ Hroot HR) as (new & evs & Hacc & HR2).
  exists new, (mkManager (env m1') (acc m1' ++ new) (log m1' ++ evs)).
  split; first done. rewrite HR2 /=. split; last by rewrite Hacc -app_assoc.
  assert (merge_acc (merge_acc ∅ (acc m1')) (acc m1' ++ new)
          = merge_acc ∅ (acc m1')) as ->; last done.
  apply map_eq. intros k. apply option_eq. intros v.
  rewrite /merge_acc -foldl_app -/(merge_acc ∅ _) !merge_acc_lookup.
  rewrite lookup_empty (last_declares_app (acc m1')).
  rewrite (last_declares_app (acc m1') new) Hacc (last_declares_app (acc m) new).
  rewrite !Forall_app. naive_solver.
Qed.

End served_again.

(** ** More on the traversal of a graph *)

Section graph_more.
Context {W Tag Image : Type}.
Context `{!Cache W, !ImageResolver W Tag Image, !XpkgMarshaler W Tag Image}.
Variable pkg_of : Dependency → ParsedPackage.
Variable known : Dependency → Prop.
Variable Inv : W → Prop.
Hypothesis graph : retrieval_graph pkg_of known Inv.

Lemma fmap_sublist_flat_map {A B} (f : A → B) (g : A → list B) (l : list A) :
  f <$> l `sublist_of` flat_map (λ d, f d :: g d) l.
Proof.
  induction l as [|d l IH]; first by constructor.
  simpl. constructor. by apply sublist_inserts_l.
Qed.

(** X10. Nothing is deduplicated.  On a graph where no retrieval fails,
    whenever [Resolve] returns, the accumulator holds after the root
    package the packages of the dependencies that the root declares, in the
    order of the declarations and as many times as they are declared (with
    what is under each in between). *)
Theorem direct_dependencies_kept_in_order fuel d
    (m : Manager W Tag Image) ud a err m' :
  known d → Inv (env m) →
  Resolve fuel d m = Some ((ud, a, err), m') →
  ∃ rest,
    a = acc m ++ pkg_of d :: rest
    ∧ pkg_of <$> xpkg.Dependencies (pkg_of d) `sublist_of` rest.
Proof using graph.
  intros Hd Hm HR.
  destruct (Resolve_graph_complete _ _ _ graph _ _ _ _ _ Hd Hm HR)
    as (new & [= _ -> _] & -> & _).
  eexists. split; first done.
  destruct fuel as [|fuel]; last by apply fmap_sublist_flat_map.
  destruct (graph_retrieve _ _ _ graph d m Hd Hm) as (m1 & Hr & _).
  by rewrite /Resolve Hr in HR.
Qed.

End graph_more.

(** ** The further properties on the scenario *)

Section more_runs.
Import local scenario scenario_more.

Lemma accumulator_only_grows_witness :
  ∃ out m' new,
    Resolve 2 depA fresh = Some (out, m') ∧ acc m' = acc fresh ++ new.
Proof.
  assert (∃ out m', Resolve 2 depA fresh = Some (out, m'))
    as (out & m' & HR) by (eexists _, _; vm_compute; reflexivity).
  destruct (proj1 (proj2 (proj2 accumulator_only_grows)) _ _ _ _ _ HR)
    as (new & Hacc & _).
  exists out, m', new. split; [exact HR|exact Hacc].
Defined.

Lemma fetch_only_when_missing_or_stale_witness :
  ∃ out m' (rs : list (Retrieval (Tag:=string) (Image:=ParsedPackage))),
    Resolve 2 depA outdated = Some (out, m')
    ∧ log m' = log outdated ++ calls_of rs
    ∧ Forall (λ x, fetch_guarded (r_calls x) ∧ store_fresh (r_calls x)) rs.
Proof.
  assert (∃ out m', Resolve 2 depA outdated = Some (out, m'))
    as (out & m' & HR) by (eexists _, _; vm_compute; reflexivity).
  destruct (fetch_only_when_missing_or_stale _ _ _ _ _ HR) as (rs & Hlog & Hrs).
  exists out, m', rs. split; [exact HR|split; [exact Hlog|exact Hrs]].
Defined.

Lemma Resolve_trail_witness :
  ∃ (x : Retrieval (Tag:=string) (Image:=ParsedPackage)) rs,
    r_dep x = depA
    ∧ [pkgA] = acc fresh_without_B ++ packages_of (x :: rs)
    ∧ ∃ rs0 y, rs = rs0 ++ [y] ∧ r_out y = Err no_such_version.
Proof.
  assert (∃ m', Resolve 2 depA fresh_without_B =
                  Some ((v1beta1.zero, [pkgA], Some no_such_version), m'))
    as [m' HR] by (eexists; vm_compute; reflexivity).
  destruct (Resolve_trail _ _ _ _ _ _ _ HR)
    as (x & rs & Hx & _ & Hacc & _ & _ & rs0 & y & Hrs & _ & Hy).
  exists x, rs. split; [exact Hx|split; [exact Hacc|]].
  exists rs0, y. split; [exact Hrs|exact Hy].
Defined.

Lemma Snapshot_stops_at_first_error_witness :
  ∃ m2, Snapshot 2 [depA; depC] fresh_without_B
        = Some (Err no_such_version, m2).
Proof.
  assert (∃ m2, Resolve 2 depA fresh_without_B =
                  Some ((v1beta1.zero, [pkgA], Some no_such_version), m2))
    as [m2 HR] by (eexists; vm_compute; reflexivity).
  exists m2.
  exact (Snapshot_stops_at_first_error 2 [] depA [depC] fresh_without_B
           ∅ fresh_without_B _ _ _ m2 eq_refl HR).
Defined.

(** C is not in the registry of the scenario. *)
Lemma depC_unretrievable (d : Dependency) (m0 : LMgr) :
  d ∈ [depC] → registry (env m0) = reg →
  ∃ err m1, retrievePkg d m0 = (Err err, m1) ∧ registry (env m1) = reg.
Proof.
  intros ->%list_elem_of_singleton Hreg.
  destruct (retrievePkg depC m0) as [r m1] eqn:Hr.
  destruct (local_retrievePkg_cases _ _ _ _ Hr)
    as (_ & [(Henv & _ & err & ->)
            |[(q & v & _ & _ & Htag & _)|(v & i & _ & Htag & _)]]).
  - exists err, m1. split; first done. by rewrite Henv.
  - rewrite Hreg in Htag. by vm_compute in Htag.
  - rewrite Hreg in Htag. by vm_compute in Htag.
Qed.

Lemma Snapshot_passes_over_unretrievable_roots_witness :
  ∃ m', Snapshot 2 [depC] fresh = Some (Ok ∅, m') ∧ acc m' = [].
Proof.
  destruct (Snapshot_passes_over_unretrievable_roots
              (λ w, registry w = reg) 2 [depC] fresh eq_refl depC_unretrievable)
    as (view & m' & HS & Hacc & Hview).
  exists m'. rewrite HS (Hview eq_refl). split; [reflexivity|exact Hacc].
Defined.

Lemma Snapshot_view_domain_witness :
  ∃ view m',
    Snapshot 1 [depA; depC] fresh_with_C = Some (Ok view, m')
    ∧ (∀ k, is_Some (view !! k)
            ↔ ∃ p, p ∈ acc m' ∧ is_Some (xpkg.Validators p !! k))
    ∧ (∀ k v, view !! k = Some v →
              ∃ p, p ∈ acc m' ∧ xpkg.Validators p !! k = Some v).
Proof.
  assert (match Snapshot 1 [depA; depC] fresh_with_C with
          | Some (Ok _, _) => true
          | _ => false
          end = true) as Hok by (vm_compute; reflexivity).
  destruct (Snapshot 1 [depA; depC] fresh_with_C) as [[[view|err] m']|] eqn:HS;
    [|discriminate Hok..].
  exists view, m'. split; first reflexivity.
  destruct (Snapshot_view_domain 1 [depA; depC] fresh_with_C view m' HS)
    as (Hdom & _ & Hval).
  split; [|exact Hval]. apply Hdom. left. discriminate.
Defined.

Lemma merge_validators_any_order_witness :
  merge_validators_ranged (map_to_list (xpkg.Validators pkgC)) ∅
  = merge_validators ∅ pkgC.
Proof.
  pose proof (merge_validators_any_order pkgC ∅
                (map_to_list (xpkg.Validators pkgC))) as Hany.
  assert (map_to_list (xpkg.Validators pkgC)
          ≡ₚ map_to_list (xpkg.Validators pkgC)) as Hperm by reflexivity.
  exact (proj1 (Hany Hperm)).
Defined.

Lemma retrieved_once_served_from_cache_witness :
  ∃ m1 v,
    retrievePkg depA fresh = (Ok pkgA, m1)
    ∧ (retrievePkg depA m1).1 = Ok pkgA
    ∧ log (retrievePkg depA m1).2 =
        log m1 ++ [CallResolveTag depA (Ok v);
                   CallGet (v1beta1.set_Constraints depA v) (Ok pkgA);
                   CallResolveDigest (v1beta1.set_Constraints depA v)
                     (Ok (xpkg.Digest pkgA))].
Proof.
  assert (∃ m1, retrievePkg depA fresh = (Ok pkgA, m1)) as [m1 Hr]
    by (eexists; vm_compute; reflexivity).
  destruct (retrieved_once_served_from_cache depA fresh pkgA m1 Hr depA m1
              eq_refl eq_refl (or_introl eq_refl)) as [v Hr2].
  exists m1, v. rewrite Hr2. split; [exact Hr|split; reflexivity].
Defined.

Lemma direct_dependencies_kept_in_order_witness :
  ∃ rest,
    [pkgA; pkgB] = acc fresh ++ pkg_of reg depA :: rest
    ∧ pkg_of reg <$> xpkg.Dependencies (pkg_of reg depA) `sublist_of` rest.
Proof.
  assert (∃ ud m', Resolve 2 depA fresh = Some ((ud, [pkgA; pkgB], None), m'))
    as (ud & m' & HR) by (eexists _, _; vm_compute; reflexivity).
  exact (direct_dependencies_kept_in_order (pkg_of reg) _ _
           (local_graph reg closed_reg) 2 depA fresh ud [pkgA; pkgB] None m'
           (ex_intro _ pkgA eq_refl) (coherent_empty reg) HR).
Defined.

Lemma Snapshot_root_twice_witness :
  ∃ view m1 new m2,
    Snapshot 2 [depA] fresh = Some (Ok view, m1)
    ∧ acc m1 = acc fresh ++ new
    ∧ Snapshot 2 [depA; depA] fresh = Some (Ok view, m2).
Proof.
  assert (match Snapshot 2 [depA] fresh with
          | Some (Ok _, _) => true
          | _ => false
          end = true) as Hok by (vm_compute; reflexivity).
  destruct (Snapshot 2 [depA] fresh) as [[[view|err] m1]|] eqn:HS;
    [|discriminate Hok..].
  assert (∃ e m0, retrievePkg depA fresh = (Ok e, m0)) as Hroot
    by (eexists _, _; vm_compute; reflexivity).
  destruct (Snapshot_root_twice 2 depA fresh view m1 Hroot HS)
    as (new & m2 & Hacc & HS2 & _).
  exists view, m1, new, m2. split; [reflexivity|split; [exact Hacc|exact HS2]].
Defined.

End more_runs.

Section new_manager_run.

Lemma New_options_in_order_witness :
  ∃ m, New (Ok scenario_more.quiet_cache) (Ok local.local_marshaler)
         local.local_resolver
         [WithResolver local.local_resolver; WithCache local.local_cache;
          WithResolver local.local_resolver] = Ok m
       ∧ mstruct.c m = local.local_cache.
Proof.
  apply (proj1 (proj2 New_options_in_order) scenario_more.quiet_cache
           local.local_marshaler local.local_resolver
           [WithResolver local.local_resolver]
           [WithResolver local.local_resolver] local.local_cache).
  constructor; [by exists local.local_resolver|constructor].
Defined.

End new_manager_run.
